(** * metrograph-watchlist: the matching-and-reconciliation pipeline

    A shallow embedding of the Go package [metrograph] (the scraper and
    store of [pkg/metrograph.go], the Radarr client and the Agregarr client
    with its two reconciliation passes, each in the version that reads a
    [ScrapedData] snapshot) and the properties of its title normaliser,
    catalog merger, catalog store and reconciliation passes.

    Conventions of the embedding:
    - a Go [string] is a byte sequence: Rocq's [string];
    - a Go [int] is a [Z] (no arithmetic of the package can overflow: the
      only arithmetic is counting the elements of a slice);
    - a slice is a [list]; [map[string]V] is a [gmap string V], and a
      [range] over a map runs over an arbitrary enumeration of its entries;
    - a Go [(value, error)] pair is a [result];
    - calls that leave the package (HTTP, the Radarr client library, the
      file system, the clock) are calls to a handler threaded through a
      state monad that also records the calls in order. *)

From Stdlib Require Import ZArith Ascii String Lia.
From stdpp Require Import base decidable option list sets gmap strings fin_maps pretty.

#[local] Set Warnings "-clear-no-such-hyp".

Local Open Scope string_scope.
Local Open Scope Z_scope.
Local Open Scope list_scope.

(** ** Data model ([pkg/metrograph.go]) *)

Record Film := mkFilm {
  Title : string;
  rawMD : string;
  Director : string;
  Year : Z;
  TMDBID : Z;
  IMDBID : string;
}.

Record Series := mkSeries {
  Name : string;
  URL : string;
  ID : string;
  Movies : list Film;
}.

Record ScrapedData := mkScrapedData {
  Date : string;
  Collections : gmap string Series;
}.

Record TMDBMovie := mkTMDBMovie {
  tm_ID : Z;
  tm_Title : string;
  tm_ReleaseDate : string;
  tm_IMDBId : string;
}.

#[global] Instance Film_eq_dec : EqDecision Film.
Proof. solve_decision. Defined.

#[global] Instance Series_eq_dec : EqDecision Series.
Proof. solve_decision. Defined.

Definition set_TMDBID (f : Film) (id : Z) : Film :=
  mkFilm (Title f) (rawMD f) (Director f) (Year f) id (IMDBID f).

Definition set_Movies (s : Series) (ms : list Film) : Series :=
  mkSeries (Name s) (URL s) (ID s) ms.

(** ** CatalogMerger: [dedupeFilms] *)

(** First loop of [dedupeFilms]: copy [colA] and record its titles. *)
Definition dedupe_copy (acc : list Film * gset string) (f : Film)
  : list Film * gset string :=
  (acc.1 ++ [f], {[ Title f ]} ∪ acc.2).

(** Second loop of [dedupeFilms]: append the films of [colB] whose title was
    not recorded.  The set [added] is not updated by this loop. *)
Definition dedupe_append (added : gset string) (results : list Film) (f : Film)
  : list Film :=
  if decide (Title f ∈ added) then results else results ++ [f].

Definition dedupeFilms (colA colB : list Film) : list Film :=
  let '(results, added) := foldl dedupe_copy ([], ∅) colA in
  foldl (dedupe_append added) results colB.

(** The titles of a film sequence. *)
Definition titles (l : list Film) : list string := Title <$> l.

(** The films of [colB] that a merge into [colA] keeps. *)
Definition fresh_films (colA colB : list Film) : list Film :=
  filter (λ f, Title f ∉ titles colA) colB.

(** ** TitleNormalizer: [cleanTitle]

    [cleanTitle] calls [strings.TrimSpace] and [Regexp.ReplaceAllString]
    for two fixed patterns.  Both are modelled on the bytes of the string,
    following the Go library: [TrimSpace] removes the leading and trailing
    code points that [unicode.IsSpace] accepts (given here by their UTF-8
    encodings); the patterns match ASCII bytes, apart from the letter [s]
    under [(?i)], which simple case folding also matches with U+017F. *)

Definition bytes (l : list N) : string :=
  fold_right (λ n s, String (ascii_of_N n) s) "" l.

Definition byte_eqb (n : N) (c : ascii) : bool := (N_of_ascii c =? n)%N.

Fixpoint strip_prefix (p s : string) : option string :=
  match p, s with
  | EmptyString, _ => Some s
  | String a p', String b s' => if Ascii.eqb a b then strip_prefix p' s' else None
  | String _ _, EmptyString => None
  end.

Fixpoint strip_any_prefix (ps : list string) (s : string) : option string :=
  match ps with
  | [] => None
  | p :: ps' =>
      match strip_prefix p s with
      | Some r => Some r
      | None => strip_any_prefix ps' s
      end
  end.

Fixpoint string_rev_onto (s acc : string) : string :=
  match s with
  | EmptyString => acc
  | String c r => string_rev_onto r (String c acc)
  end.

Definition string_rev (s : string) : string := string_rev_onto s "".

(** The code points of [unicode.IsSpace], UTF-8 encoded: tab, LF, VT, FF, CR,
    space, U+0085, U+00A0, U+1680, U+2000..U+200A, U+2028, U+2029, U+202F,
    U+205F, U+3000. *)
Definition space_runes : list string :=
  (bytes <$> [[9]; [10]; [11]; [12]; [13]; [32];
              [194; 133]; [194; 160]; [225; 154; 128]]%N)
  ++ ((λ b, bytes [226; 128; b]%N) <$> [128; 129; 130; 131; 132; 133; 134; 135; 136; 137; 138]%N)
  ++ (bytes <$> [[226; 128; 168]; [226; 128; 169]; [226; 128; 175];
                 [226; 129; 159]; [227; 128; 128]]%N).

(** Removes leading entries of [runes] for as long as one is a prefix; each
    step removes at least one byte, so [String.length s] steps are enough. *)
Fixpoint trim_prefixes (runes : list string) (fuel : nat) (s : string) : string :=
  match fuel with
  | O => s
  | S fuel' =>
      match strip_any_prefix runes s with
      | Some r => trim_prefixes runes fuel' r
      | None => s
      end
  end.

Definition TrimLeftSpace (s : string) : string :=
  trim_prefixes space_runes (String.length s) s.

Definition TrimRightSpace (s : string) : string :=
  string_rev (trim_prefixes (string_rev <$> space_runes) (String.length s)
                (string_rev s)).

(** [strings.TrimSpace] *)
Definition TrimSpace (s : string) : string := TrimRightSpace (TrimLeftSpace s).

(** [re := regexp.MustCompile(`\[[^\]]*\]`)]: is there a closing bracket
    ahead? *)
Fixpoint has_close (s : string) : bool :=
  match s with
  | EmptyString => false
  | String c r => if byte_eqb 93 c then true else has_close r
  end.

(** [re.ReplaceAllString] with the empty replacement: leftmost matches, not overlapping.  A match
    starts at an opening bracket that has a closing bracket after it and ends
    at the first closing bracket ([inside] is true between the two). *)
Fixpoint re_remove (inside : bool) (s : string) : string :=
  match s with
  | EmptyString => EmptyString
  | String c r =>
      if inside then
        (if byte_eqb 93 c then re_remove false r else re_remove true r)
      else if byte_eqb 91 c && has_close r then re_remove true r
      else String c (re_remove false r)
  end.

Definition re_ReplaceAllString (s : string) : string := re_remove false s.

(** [presentsRe := regexp.MustCompile(`(?i)^.*presents:\s*`)].  The literal,
    one list of alternatives per letter. *)
Definition presents_literal : list (list string) :=
  [ ["p"; "P"]; ["r"; "R"]; ["e"; "E"]; ["s"; "S"; bytes [197; 191]%N];
    ["e"; "E"]; ["n"; "N"]; ["t"; "T"]; ["s"; "S"; bytes [197; 191]%N]; [":"] ].

Fixpoint match_literal (pat : list (list string)) (s : string) : option string :=
  match pat with
  | [] => Some s
  | alts :: pat' =>
      match strip_any_prefix alts s with
      | Some r => match_literal pat' r
      | None => None
      end
  end.

(** Greedy [^.*] followed by the literal: the text after the last occurrence
    of the literal that starts on the first line ([.] does not match LF). *)
Fixpoint after_last_presents (s : string) : option string :=
  match s with
  | EmptyString => None
  | String c r =>
      let later := if byte_eqb 10 c then None else after_last_presents r in
      match later with
      | Some rest => Some rest
      | None => match_literal presents_literal s
      end
  end.

(** [\s*]: tab, LF, FF, CR and space. *)
Fixpoint drop_re_space (s : string) : string :=
  match s with
  | EmptyString => EmptyString
  | String c r =>
      if byte_eqb 9 c || byte_eqb 10 c || byte_eqb 12 c || byte_eqb 13 c
         || byte_eqb 32 c
      then drop_re_space r else s
  end.

(** [presentsRe.ReplaceAllString] with the empty replacement: the pattern is anchored at the start
    of the text, so it matches at most once. *)
Definition presentsRe_ReplaceAllString (s : string) : string :=
  match after_last_presents s with
  | Some rest => drop_re_space rest
  | None => s
  end.

Definition cleanTitle (title : string) : list string :=
  let variations := [title] in
  let withoutBrackets := TrimSpace (re_ReplaceAllString title) in
  let variations :=
    if bool_decide (withoutBrackets ≠ title ∧ withoutBrackets ≠ "")
    then variations ++ [withoutBrackets] else variations in
  let withoutPresents := TrimSpace (presentsRe_ReplaceAllString title) in
  let variations :=
    if bool_decide (withoutPresents ≠ title ∧ withoutPresents ≠ "")
    then variations ++ [withoutPresents] else variations in
  let withoutBoth := TrimSpace (presentsRe_ReplaceAllString withoutBrackets) in
  let variations :=
    if bool_decide (withoutBoth ≠ title ∧ withoutBoth ≠ withoutBrackets
                    ∧ withoutBoth ≠ withoutPresents ∧ withoutBoth ≠ "")
    then variations ++ [withoutBoth] else variations in
  variations.

(** The contract of the normaliser as the specification words it. *)
Definition variants_contract (t : string) : Prop :=
  (1 ≤ length (cleanTitle t))%nat
  ∧ head (cleanTitle t) = Some t
  ∧ NoDup (cleanTitle t)
  ∧ "" ∉ cleanTitle t.

(** ** Results, collaborators and effects *)

(** A Go [(value, error)] pair: the value, or the text of the error. *)
Inductive result (A : Type) : Type :=
| Ok (a : A)
| Err (msg : string).
Arguments Ok {A} a.
Arguments Err {A} msg.

(** How a function that may call [log.Fatal] ends: it returns, or the
    process ends there, after it printed [msg]. *)
Inductive Ends (A : Type) : Type :=
| Returns (a : A)
| Exits (msg : string).
Arguments Returns {A} a.
Arguments Exits {A} msg.

(** [fmt.Sprintf] with a [%d] verb. *)
Definition fmt_d (n : Z) : string := pretty n.

(** *** The Radarr side (the package's Radarr client and the [starr] library) *)

Record RadarrConfig := mkRadarrConfig {
  rc_Host : string;
  rc_APIKey : string;
  rc_RootFolderPath : string;
  rc_QualityProfileID : Z;
  rc_Monitored : bool;
  rc_SearchForMovie : bool;
}.

(** [starr.Tag] *)
Record Tag := mkTag {
  tag_ID : Z;
  tag_Label : string;
}.

(** [radarr.Movie], with the fields the package reads or writes. *)
Record Movie := mkMovie {
  mv_ID : Z;
  mv_Title : string;
  mv_TmdbID : Z;
  mv_Tags : list Z;
}.

Definition set_Tags (m : Movie) (tags : list Z) : Movie :=
  mkMovie (mv_ID m) (mv_Title m) (mv_TmdbID m) tags.

(** [radarr.AddMovieInput], with [AddOptions.SearchForMovie] inlined. *)
Record AddMovieInput := mkAddMovieInput {
  in_Title : string;
  in_Year : Z;
  in_TmdbID : Z;
  in_QualityProfileID : Z;
  in_RootFolderPath : string;
  in_Monitored : bool;
  in_Tags : list Z;
  in_SearchForMovie : bool;
}.

(** *** The Agregarr side *)

Record AgregarrConfig := mkAgregarrConfig {
  ag_Host : string;
  ag_APIKey : string;
}.

Record VisibilityConfig := mkVisibilityConfig {
  UsersHome : bool;
  ServerOwnerHome : bool;
  LibraryRecommended : bool;
}.

Record Collection := mkCollection {
  c_ID : string;
  c_Name : string;
  c_VisibilityConfig : VisibilityConfig;
  c_MaxItems : Z;
  c_Type : string;
  c_Subtype : string;
  c_MediaType : string;
  c_LibraryIds : list string;
  c_LibraryNames : list string;
  c_Template : string;
  c_SortOrderHome : Z;
  c_SortOrderLibrary : Z;
  c_RandomizeHomeOrder : bool;
  c_RandomizeOrder : bool;
  c_AutoPoster : bool;
  c_AutoPosterTemplate : Z;
  c_SearchMissingMovies : bool;
  c_AutoApproveMovies : bool;
  c_DownloadMode : string;
  c_RadarrInstanceID : Z;
  c_DirectDownloadRadarrProfileID : Z;
  c_DirectDownloadRadarrRootFolder : string;
  c_RadarrTagID : Z;
}.

(** The value [Collection{ID: id, Name: name}]: every other field zero. *)
Definition Collection_with (id name : string) : Collection :=
  mkCollection id name (mkVisibilityConfig false false false) 0 "" "" "" [] []
    "" 0 0 false false false 0 false false "" 0 0 "" 0.

(** An HTTP request of [makeRequest]: the body, when there is one, is the
    [Collection] that [json.Marshal] serialises. *)
Record Request := mkRequest {
  rq_Method : string;
  rq_URL : string;
  rq_APIKey : string;
  rq_Body : option Collection;
}.

(** An HTTP response of the collection service.  [rs_Body] is what
    [io.ReadAll] reads of the body and [rs_ReadErr] its error, when it has
    one.  The package uses what was read in two ways: as text for its
    messages, and through the JSON decoder of an object with a
    [collectionConfigs] array; [rs_Configs] is what that decoder gives. *)
Record Response := mkResponse {
  rs_StatusCode : Z;
  rs_Body : string;
  rs_ReadErr : option string;
  rs_Configs : result (list Collection);
}.

(** *** The movie database *)

(** The search URL of [searchTMDBWithTitle], by its parts: the key, the
    title variant before escaping, and the year when the URL carries one. *)
Record TMDBQuery := mkTMDBQuery {
  q_api_key : string;
  q_query : string;
  q_year : option Z;
}.

(** The response of [http.Get]: the status and what the JSON decoder of
    [TMDBSearchResponse] gives for the body (its [Results], or an error). *)
Record TMDBResponse := mkTMDBResponse {
  tr_StatusCode : Z;
  tr_Results : result (list TMDBMovie);
}.

(** *** Calls that leave the package

    [Call X] is a call whose answer has type [X].  A file is read and
    written through [encoding/json]: the content of a file is given by what
    [json.Unmarshal] into [ScrapedData] makes of it, and what is written is
    the [ScrapedData] that [json.MarshalIndent] serialises.  [RangeMap m] is
    the order in which one [range] statement visits the map [m].
    [HttpNewRequest] is [http.NewRequest], which checks the method and
    parses the URL and sends nothing; [HttpDo] is [httpClient.Do], which
    sends the request. *)
Inductive Call : Type → Type :=
| OsReadFile (path : string) : Call (result (result ScrapedData))
| OsWriteFile (filename : string) (data : ScrapedData) : Call (result ())
| TimeNow : Call string
| TimeSleep (ms : Z) : Call ()
| RangeMap (m : gmap string Series) : Call (list (string * Series))
| HttpGet (q : TMDBQuery) : Call (result TMDBResponse)
| HttpNewRequest (method url : string) : Call (result ())
| HttpDo (req : Request) : Call (result Response)
| RadarrGetTags : Call (result (list Tag))
| RadarrAddTag (label : string) : Call (result Tag)
| RadarrDeleteTag (tagID : Z) : Call (result ())
| RadarrAddMovie (input : AddMovieInput) : Call (result Movie)
| RadarrGetMovie (tmdbID : Z) : Call (result (list Movie))
| RadarrGetMovieByID (movieID : Z) : Call (result Movie)
| RadarrUpdateMovie (movieID : Z) (movie : Movie) (moveFiles : bool)
    : Call (result Movie).

(** A call together with its answer. *)
Inductive Event : Type :=
| Ev {X : Type} (c : Call X) (x : X).

(** What the world outside the package does with a call, from a state [W]
    of that world. *)
Class Handler (W : Type) := handle : ∀ X : Type, Call X → W → X * W.

(** The outcome of a computation: its value, the world it leaves and the
    calls it made, in order. *)
Record Out (W A : Type) := mkOut {
  value : A;
  world : W;
  events : list Event;
}.
Arguments mkOut {W A} value world events.
Arguments value {W A} o.
Arguments world {W A} o.
Arguments events {W A} o.

Definition M (W A : Type) : Type := W → Out W A.

Definition ret {W A : Type} (a : A) : M W A := λ w, mkOut a w [].

Definition bind {W A B : Type} (m : M W A) (k : A → M W B) : M W B :=
  λ w,
    let o1 := m w in
    let o2 := k (value o1) (world o1) in
    mkOut (value o2) (world o2) (events o1 ++ events o2).

Definition call {W : Type} `{Handler W} {X : Type} (c : Call X) : M W X :=
  λ w, let r := handle X c w in mkOut r.1 r.2 [Ev c r.1].

Notation "'do' x ← m ; k" := (bind m (λ x, k))
  (at level 10, x name, m at level 100, k at level 200,
   format "'[v' 'do'  x  ←  m ;  '/' k ']'").

(** A [for] loop over a slice whose body may [return]: the body gives
    [Some r] to return [r] from the enclosing function and [None] to go on
    ([continue] or the end of the body). *)
Fixpoint for_each {W A R : Type} (body : A → M W (option R)) (l : list A)
  : M W (option R) :=
  match l with
  | [] => ret None
  | a :: l' =>
      do r ← body a;
      match r with
      | Some r => ret (Some r)
      | None => for_each body l'
      end
  end.

(** A [for] loop over a slice whose body never returns from the function. *)
Fixpoint for_range {W A : Type} (body : A → M W ()) (l : list A) : M W () :=
  match l with
  | [] => ret ()
  | a :: l' => do _ ← body a; for_range body l'
  end.

(** ** The package's functions *)

Section Programs.
Context {W : Type} `{Handler W}.

(** The number of films with [TMDBID > 0]: the counting loop that
    [writeToFile], [ProcessJSONToRadarr], [SyncCollectionsFromJSON] and
    [CreateCollectionsFromJSON] all start with. *)
Definition validMovies (series : Series) : Z :=
  foldl (λ n movie, if 0 <? TMDBID movie then n + 1 else n) 0 (Movies series).

(** *** CatalogMatcher ([pkg/metrograph.go]) *)

(** [nil, err] is [Err]; [movie, nil] is [Ok (Some movie)]; [nil, nil] (no
    results, but no error) is [Ok None]. *)
Definition searchTMDBWithTitle (title : string) (year : Z) (apiKey : string)
  : M W (result (option TMDBMovie)) :=
  let searchURL :=
    mkTMDBQuery apiKey title (if 0 <? year then Some year else None) in
  do _ ← call (TimeSleep 250);
  do r ← call (HttpGet searchURL);
  match r with
  | Err e => ret (Err e)
  | Ok resp =>
      if negb (tr_StatusCode resp =? 200) then
        ret (Err ("TMDB API returned status " +:+ fmt_d (tr_StatusCode resp)))
      else
        match tr_Results resp with
        | Err e => ret (Err e)
        | Ok (movie :: _) => ret (Ok (Some movie))
        | Ok [] => ret (Ok None)
        end
  end.

(** The loop of [SearchTMDB] over the title variations. *)
Fixpoint SearchTMDB_try (title : string) (year : Z) (apiKey : string)
    (titleVariations : list string) : M W (result TMDBMovie) :=
  match titleVariations with
  | [] =>
      ret (Err ("no results found for " +:+ title +:+ " (" +:+ fmt_d year
                +:+ ") or any variations"))
  | variation :: rest =>
      do r ← searchTMDBWithTitle variation year apiKey;
      match r with
      | Err e => ret (Err e)
      | Ok (Some movie) => ret (Ok movie)
      | Ok None => SearchTMDB_try title year apiKey rest
      end
  end.

Definition SearchTMDB (title : string) (year : Z) (apiKey : string)
  : M W (result TMDBMovie) :=
  if bool_decide (apiKey = "") then ret (Err "TMDB API key is required")
  else SearchTMDB_try title year apiKey (cleanTitle title).

(** The body of the loop of [populateIMDBID] for one film. *)
Definition populate_film (tmdbAPIKey : string) (film : Film) : M W Film :=
  if bool_decide (tmdbAPIKey ≠ "") then
    do r ← SearchTMDB (Title film) (Year film) tmdbAPIKey;
    match r with
    | Ok tmdbMovie => ret (set_TMDBID film (tm_ID tmdbMovie))
    | Err _ => ret film
    end
  else ret film.

(** [populateIMDBID] updates the slice in place and returns nothing; here
    it returns the slice as it leaves it. *)
Fixpoint populateIMDBID (films : list Film) (tmdbAPIKey : string)
  : M W (list Film) :=
  match films with
  | [] => ret []
  | film :: rest =>
      do film' ← populate_film tmdbAPIKey film;
      do rest' ← populateIMDBID rest tmdbAPIKey;
      ret (film' :: rest')
  end.

(** *** CatalogStore ([pkg/metrograph.go]) *)

(** The filtering loop of [writeToFile], over the entries as visited. *)
Definition writeToFile_filter (entries : list (string * Series))
  : gmap string Series :=
  foldl (λ filteredResults e,
           if 2 <? validMovies e.2 then <[e.1 := e.2]> filteredResults
           else filteredResults)
        ∅ entries.

(** The function returns [nil] or does not return: [log.Fatalf] on a failed
    write ends the process.  [json.MarshalIndent] of a [ScrapedData]
    (strings, numbers, and maps and slices of them) does not fail, so the
    [log.Fatal] after it is not reached. *)
Definition writeToFile (scrappedSeries : gmap string Series)
  : M W (Ends (result ())) :=
  do entries ← call (RangeMap scrappedSeries);
  let filteredResults := writeToFile_filter entries in
  do today ← call TimeNow;
  let filename := today +:+ ".json" in
  let scrapedData := mkScrapedData today filteredResults in
  do r ← call (OsWriteFile filename scrapedData);
  match r with
  | Err e => ret (Exits ("Failed to write to " +:+ filename +:+ ": " +:+ e))
  | Ok _ => ret (Returns (Ok ()))
  end.

(** The merging loop of [UpdateFileStore], over the entries of
    [scrappedData] as visited. *)
Definition UpdateFileStore_merge (fileCollections : gmap string Series)
    (scrappedData : gmap string Series) (entries : list (string * Series))
  : gmap string Series :=
  foldl (λ scrappedData e,
           match fileCollections !! e.1 with
           | Some col =>
               let merged := dedupeFilms (Movies col) (Movies e.2) in
               <[e.1 := set_Movies e.2 merged]> scrappedData
           | None => scrappedData
           end)
        scrappedData entries.

Definition UpdateFileStore (scrappedData : gmap string Series)
    (curFilePath : string) : M W (Ends (result ())) :=
  do data ← call (OsReadFile curFilePath);
  match data with
  | Err e =>
      ret (Returns
             (Err ("failed to read JSON file " +:+ curFilePath +:+ ": " +:+ e)))
  | Ok (Err e) =>
      ret (Returns
             (Err ("failed to parse JSON file " +:+ curFilePath +:+ ": " +:+ e)))
  | Ok (Ok fileData) =>
      do entries ← call (RangeMap scrappedData);
      writeToFile (UpdateFileStore_merge (Collections fileData) scrappedData entries)
  end.

(** *** Radarr client *)

Definition find_tag (name : string) (tags : list Tag) : option Tag :=
  List.find (λ tag, bool_decide (tag_Label tag = name)) tags.

Definition CreateTag (name : string) : M W (result Z) :=
  do tags ← call RadarrGetTags;
  match tags with
  | Err e => ret (Err ("failed to get existing tags: " +:+ e))
  | Ok tags =>
      match find_tag name tags with
      | Some tag => ret (Ok (tag_ID tag))
      | None =>
          do created ← call (RadarrAddTag name);
          match created with
          | Err e => ret (Err ("failed to create tag '" +:+ name +:+ "': " +:+ e))
          | Ok createdTag => ret (Ok (tag_ID createdTag))
          end
      end
  end.

Definition GetMovieByTMDBID (tmdbID : Z) : M W (result Movie) :=
  do movies ← call (RadarrGetMovie tmdbID);
  match movies with
  | Err e => ret (Err ("failed to get movies: " +:+ e))
  | Ok [] => ret (Err ("movie with TMDB ID " +:+ fmt_d tmdbID +:+ " not found"))
  | Ok (movie :: _) => ret (Ok movie)
  end.

Definition UpdateMovieTags (movieID : Z) (newTagIDs : list Z) : M W (result ()) :=
  do movie ← call (RadarrGetMovieByID movieID);
  match movie with
  | Err e => ret (Err ("failed to get movie: " +:+ e))
  | Ok movie =>
      do r ← call (RadarrUpdateMovie movieID (set_Tags movie newTagIDs) false);
      match r with
      | Err e => ret (Err ("failed to update movie: " +:+ e))
      | Ok _ => ret (Ok ())
      end
  end.

(** [s[i:i+len(substr)] == substr] for some [i] in [0 .. len(s)-len(substr)],
    for some [substr] of the list. *)
Definition containsAny (s : string) (substrs : list string) : bool :=
  existsb
    (λ substr,
       (String.length substr <=? String.length s)%nat
       && existsb
            (λ i, String.eqb (substring i (String.length substr) s) substr)
            (seq 0 (String.length s - String.length substr + 1)))
    substrs.

(** The tag merge of [AddMovie]: [existingTagMap] holds the tags of the
    existing movie and is not updated while the requested ids are visited. *)
Definition merge_tags (existingTags tagIDs : list Z) : list Z * Z :=
  let existingTagMap : gmap Z bool :=
    foldl (λ m tagID, <[tagID := true]> m) ∅ existingTags in
  foldl (λ acc tagID,
           if negb (default false (existingTagMap !! tagID))
           then (acc.1 ++ [tagID], acc.2 + 1) else acc)
        (existingTags, 0) tagIDs.

Definition AddMovie (config : RadarrConfig) (tmdbID : Z) (title : string)
    (year : Z) (tagIDs : list Z) : M W (result ()) :=
  let addMovieInput :=
    mkAddMovieInput title year tmdbID (rc_QualityProfileID config)
      (rc_RootFolderPath config) (rc_Monitored config) tagIDs
      (rc_SearchForMovie config) in
  do added ← call (RadarrAddMovie addMovieInput);
  match added with
  | Ok _ => ret (Ok ())
  | Err errMsg =>
      if containsAny errMsg ["already been added"; "already exists"] then
        do existing ← GetMovieByTMDBID tmdbID;
        match existing with
        | Err e => ret (Err ("failed to get existing movie: " +:+ e))
        | Ok existingMovie =>
            let '(updatedTags, addedCount) :=
              merge_tags (mv_Tags existingMovie) tagIDs in
            if 0 <? addedCount then
              do r ← UpdateMovieTags (mv_ID existingMovie) updatedTags;
              match r with
              | Err e =>
                  ret (Err ("failed to update tags for existing movie: " +:+ e))
              | Ok _ => ret (Ok ())
              end
            else ret (Ok ())
        end
      else
        ret (Err ("failed to add movie '" +:+ title +:+ "' (" +:+ fmt_d year
                  +:+ "): " +:+ errMsg))
  end.

Definition GetTagIDByName (tagName : string) : M W (result Z) :=
  do tags ← call RadarrGetTags;
  match tags with
  | Err e => ret (Err ("failed to get tags from Radarr: " +:+ e))
  | Ok tags =>
      match find_tag tagName tags with
      | Some tag => ret (Ok (tag_ID tag))
      | None => ret (Err ("tag '" +:+ tagName +:+ "' not found in Radarr"))
      end
  end.

Definition DeleteTag (tagName : string) : M W (result ()) :=
  do tagID ← GetTagIDByName tagName;
  match tagID with
  | Err e => ret (Err e)
  | Ok tagID =>
      do r ← call (RadarrDeleteTag tagID);
      match r with
      | Err e =>
          ret (Err ("failed to delete tag '" +:+ tagName +:+ "' (ID "
                    +:+ fmt_d tagID +:+ "): " +:+ e))
      | Ok _ => ret (Ok ())
      end
  end.

(** The body of the loop of [ProcessJSONToRadarr] for one entry of the
    snapshot. *)
Definition process_series (config : RadarrConfig) (e : string * Series)
  : M W () :=
  let '(seriesID, series) := e in
  if validMovies series <? 2 then ret ()
  else
    let tagName := "metrograph-" +:+ seriesID in
    do tag ← CreateTag tagName;
    match tag with
    | Err _ => ret ()
    | Ok tagID =>
        for_range
          (λ movie,
             if 0 <? TMDBID movie then
               do _ ← AddMovie config (TMDBID movie) (Title movie) (Year movie)
                        [tagID];
               ret ()
             else ret ())
          (Movies series)
    end.

Definition ProcessJSONToRadarr (jsonFile : string) (config : RadarrConfig)
  : M W (result ()) :=
  do data ← call (OsReadFile jsonFile);
  match data with
  | Err e => ret (Err ("failed to read JSON file " +:+ jsonFile +:+ ": " +:+ e))
  | Ok (Err e) =>
      ret (Err ("failed to parse JSON file " +:+ jsonFile +:+ ": " +:+ e))
  | Ok (Ok scrapedData) =>
      do results ← call (RangeMap (Collections scrapedData));
      do _ ← for_range (process_series config) results;
      ret (Ok ())
  end.
End Programs.

(** *** Agregarr client and the reconciliation passes *)

(** [len(s) > n && s[:n] == prefix], with [n] the length of [prefix]: the
    test of [SyncCollectionsFromJSON] on a collection name and on a subtype. *)
Definition longer_with_prefix (prefix s : string) : bool :=
  (String.length prefix <? String.length s)%nat
  && String.eqb (substring 0 (String.length prefix) s) prefix.

(** [collection.Subtype != "" && len(collection.Subtype) > 11 &&
    collection.Subtype[:11] == "metrograph-"] *)
Definition owned_subtype (subtype : string) : bool :=
  negb (String.eqb subtype "") && longer_with_prefix "metrograph-" subtype.

(** [len(collection.Name) > 12 && collection.Name[:12] == "Metrograph: "] *)
Definition owned_name (name : string) : bool :=
  longer_with_prefix "Metrograph: " name.

(** The set [expectedNames] of [SyncCollectionsFromJSON] (a [map[string]bool]
    that only ever holds [true]), from the entries of the snapshot as
    visited. *)
Definition expectedNames_of (results : list (string * Series)) : gset string :=
  foldl (λ expectedNames e,
           if 2 <=? validMovies e.2
           then {[ "Metrograph: " +:+ Name e.2 ]} ∪ expectedNames
           else expectedNames)
        ∅ results.

(** The collection that [CreateCollectionsFromJSON] builds for a series. *)
Definition new_collection (radarrConfig : RadarrConfig) (seriesID : string)
    (series : Series) (tagID : Z) : Collection :=
  let collectionName := "Metrograph: " +:+ Name series in
  mkCollection
    "" collectionName (mkVisibilityConfig true true true) 10
    "radarrtag" ("metrograph-" +:+ seriesID) "movie"
    ["1"] []
    collectionName 0 0 false false
    true 0
    true true "direct"
    0 (rc_QualityProfileID radarrConfig) (rc_RootFolderPath radarrConfig) tagID.

Section Reconciliation.
Context {W : Type} `{Handler W}.

(** The body is [nil] or a [Collection], whose [json.Marshal] (strings,
    numbers, booleans and slices of strings) does not fail.  The request
    is created first, and sent only when it could be created. *)
Definition makeRequest (a : AgregarrConfig) (method endpoint : string)
    (body : option Collection) : M W (result Response) :=
  let url := ag_Host a +:+ "/api/v1/" +:+ endpoint in
  do req ← call (HttpNewRequest method url);
  match req with
  | Err e => ret (Err ("failed to create request: " +:+ e))
  | Ok _ =>
      do resp ← call (HttpDo (mkRequest method url (ag_APIKey a) body));
      match resp with
      | Err e => ret (Err ("failed to make request: " +:+ e))
      | Ok resp => ret (Ok resp)
      end
  end.

Definition CreateCollection (a : AgregarrConfig) (collection : Collection)
  : M W (result Collection) :=
  let endpoint := "collections/create" in
  do resp ← makeRequest a "POST" endpoint (Some collection);
  match resp with
  | Err e => ret (Err ("request error for " +:+ endpoint +:+ ": " +:+ e))
  | Ok resp =>
      if 300 <=? rs_StatusCode resp then
        ret (Err ("failed to create collection at " +:+ endpoint +:+ ": HTTP "
                  +:+ fmt_d (rs_StatusCode resp) +:+ " - " +:+ rs_Body resp))
      else
        match rs_Configs resp with
        | Err _ => ret (Ok (Collection_with "created" (c_Name collection)))
        | Ok (created :: _) => ret (Ok created)
        | Ok [] => ret (Ok (Collection_with "created" (c_Name collection)))
        end
  end.

Definition GetCollections (a : AgregarrConfig) : M W (result (list Collection)) :=
  do resp ← makeRequest a "GET" "collections" None;
  match resp with
  | Err e => ret (Err e)
  | Ok resp =>
      if negb (rs_StatusCode resp =? 200) then
        ret (Err ("failed to get collections: HTTP " +:+ fmt_d (rs_StatusCode resp)))
      else
        match rs_ReadErr resp with
        | Some e => ret (Err ("failed to read response: " +:+ e))
        | None =>
            match rs_Configs resp with
            | Err e => ret (Err ("failed to decode response: " +:+ e))
            | Ok collectionConfigs => ret (Ok collectionConfigs)
            end
        end
  end.

Definition DeleteCollection (a : AgregarrConfig) (collectionID : string)
  : M W (result ()) :=
  let endpoint := "collections/" +:+ collectionID in
  do resp ← makeRequest a "DELETE" endpoint None;
  match resp with
  | Err e => ret (Err ("request error for " +:+ endpoint +:+ ": " +:+ e))
  | Ok resp =>
      if 300 <=? rs_StatusCode resp then
        ret (Err ("failed to delete collection " +:+ collectionID +:+ ": HTTP "
                  +:+ fmt_d (rs_StatusCode resp) +:+ " - " +:+ rs_Body resp))
      else ret (Ok ())
  end.

(** The body of the deleting loop of [SyncCollectionsFromJSON] for one
    existing collection.  The two counters of the loop are only printed and
    are left out. *)
Definition sync_collection (a : AgregarrConfig) (expectedNames : gset string)
    (collection : Collection) : M W () :=
  if owned_name (c_Name collection) then
    if negb (bool_decide (c_Name collection ∈ expectedNames)) then
      do _ ← DeleteCollection a (c_ID collection);
      if owned_subtype (c_Subtype collection) then
        do _ ← DeleteTag (c_Subtype collection);
        ret ()
      else ret ()
    else ret ()
  else ret ().

(** The deleting loop of [SyncCollectionsFromJSON]. *)
Definition sync_delete (a : AgregarrConfig) (expectedNames : gset string)
    (existingCollections : list Collection) : M W () :=
  for_range (sync_collection a expectedNames) existingCollections.

Definition SyncCollectionsFromJSON (jsonFile : string)
    (radarrConfig : RadarrConfig) (agregarrConfig : AgregarrConfig)
  : M W (result ()) :=
  do data ← call (OsReadFile jsonFile);
  match data with
  | Err e => ret (Err ("failed to read JSON file " +:+ jsonFile +:+ ": " +:+ e))
  | Ok (Err e) =>
      ret (Err ("failed to parse JSON file " +:+ jsonFile +:+ ": " +:+ e))
  | Ok (Ok scrapedData) =>
      do existing ← GetCollections agregarrConfig;
      match existing with
      | Err e => ret (Err ("failed to get existing collections: " +:+ e))
      | Ok existingCollections =>
          do results ← call (RangeMap (Collections scrapedData));
          let expectedNames := expectedNames_of results in
          do _ ← sync_delete agregarrConfig expectedNames existingCollections;
          ret (Ok ())
      end
  end.

(** The body of the loop of [CreateCollectionsFromJSON] for one entry of
    the snapshot: [Some e] is [return err], [None] goes on to the next
    entry. *)
Definition create_collection (radarrConfig : RadarrConfig)
    (agregarrConfig : AgregarrConfig) (e : string * Series)
  : M W (option string) :=
  let '(seriesID, series) := e in
  let tagName := "metrograph-" +:+ seriesID in
  do tagID ← GetTagIDByName tagName;
  match tagID with
  | Err e => ret (Some e)
  | Ok tagID =>
      let collection := new_collection radarrConfig seriesID series tagID in
      do _ ← CreateCollection agregarrConfig collection;
      ret None
  end.

Definition CreateCollectionsFromJSON (jsonFile : string)
    (radarrConfig : RadarrConfig) (agregarrConfig : AgregarrConfig)
  : M W (result ()) :=
  do data ← call (OsReadFile jsonFile);
  match data with
  | Err e => ret (Err ("failed to read JSON file " +:+ jsonFile +:+ ": " +:+ e))
  | Ok (Err e) =>
      ret (Err ("failed to parse JSON file " +:+ jsonFile +:+ ": " +:+ e))
  | Ok (Ok scrapedData) =>
      do results ← call (RangeMap (Collections scrapedData));
      do r ← for_each (create_collection radarrConfig agregarrConfig) results;
      match r with
      | Some e => ret (Err e)
      | None => ret (Ok ())
      end
  end.
End Reconciliation.

(** ** Further functions of the package *)

(** *** The metadata of a scraped film ([Crawl], after the scrape) *)

(** Does the string hold the byte? *)
Fixpoint has_byte (n : N) (s : string) : bool :=
  match s with
  | EmptyString => false
  | String c r => byte_eqb n c || has_byte n r
  end.

(** [strings.Split(s, "/")]: the texts between the slashes, one more than
    there are slashes. *)
Fixpoint Split_slash (s : string) : list string :=
  match s with
  | EmptyString => [EmptyString]
  | String c r =>
      if byte_eqb 47 c then EmptyString :: Split_slash r
      else
        match Split_slash r with
        | part :: parts => String c part :: parts
        | [] => [String c EmptyString]
        end
  end.

Definition digit_of (c : ascii) : option Z :=
  let n := N_of_ascii c in
  if ((48 <=? n) && (n <=? 57))%N then Some (Z.of_N n - 48) else None.

Fixpoint parse_digits (acc : Z) (s : string) : option Z :=
  match s with
  | EmptyString => Some acc
  | String c r =>
      match digit_of c with
      | Some d => parse_digits (acc * 10 + d) r
      | None => None
      end
  end.

(** [strconv.Atoi] on a 64-bit platform: an optional sign, then one or more
    decimal digits, and a value that fits an [int]. *)
Definition Atoi (s : string) : result Z :=
  let '(neg, digits) :=
    match s with
    | String c r =>
        if byte_eqb 45 c then (true, r)
        else if byte_eqb 43 c then (false, r)
        else (false, s)
    | EmptyString => (false, EmptyString)
    end in
  match digits with
  | EmptyString => Err "invalid syntax"
  | String _ _ =>
      match parse_digits 0 digits with
      | None => Err "invalid syntax"
      | Some n =>
          let v := if neg : bool then - n else n in
          if (- 2 ^ 63 <=? v) && (v <=? 2 ^ 63 - 1) then Ok v
          else Err "value out of range"
      end
  end.

Definition set_Year (m : Film) (yr : Z) : Film :=
  mkFilm (Title m) (rawMD m) (Director m) yr (TMDBID m) (IMDBID m).

Definition set_Director (m : Film) (director : string) : Film :=
  mkFilm (Title m) (rawMD m) director (Year m) (TMDBID m) (IMDBID m).

(** The body of the metadata loop of [Crawl] for one film. *)
Definition parse_metadata (m : Film) : Film :=
  if bool_decide (rawMD m ≠ "") then
    match Split_slash (rawMD m) with
    | first :: second :: _ =>
        let firstPart := TrimSpace first in
        let secondPart := TrimSpace second in
        match Atoi firstPart with
        | Ok yr =>
            if (1800 <? yr) && (yr <? 2100) then set_Year m yr
            else
              let m := set_Director m firstPart in
              match Atoi secondPart with
              | Ok yr => set_Year m yr
              | Err _ => m
              end
        | Err _ =>
            let m := set_Director m firstPart in
            match Atoi secondPart with
            | Ok yr => set_Year m yr
            | Err _ => m
            end
        end
    | _ => m
    end
  else m.

(** The metadata loop of [Crawl], over the entries of [results] as visited:
    each series gets its films back with their metadata parsed. *)
Definition Crawl_parse_metadata (results : gmap string Series)
    (entries : list (string * Series)) : gmap string Series :=
  foldl (λ results e,
           <[e.1 := set_Movies e.2 (parse_metadata <$> Movies e.2)]> results)
        results entries.

(** *** [TestConnection] *)

Definition testPaths : list string :=
  ["health"; "status"; "ping"; "version"; "collections"].

Definition TestConnection {W : Type} `{Handler W} (a : AgregarrConfig)
  : M W (result ()) :=
  do _ ← for_range (λ path, do _ ← makeRequest a "GET" path None; ret ()) testPaths;
  ret (Ok ()).

(** ** An in-memory world

    A world to run the package against: files in a map, a movie database
    that answers by title, a collection service and a Radarr server that
    keep lists.  [fk_radarr_up] is how many more calls the Radarr server
    answers ([None]: all of them); after that every call to it fails. *)

Record Fake := mkFake {
  fk_files : gmap string (result ScrapedData);
  fk_today : string;
  fk_tmdb : list (string * result TMDBResponse);
  fk_collections : list Collection;
  fk_tags : list Tag;
  fk_movies : list Movie;
  fk_next : Z;
  fk_radarr_up : option nat;
}.

Definition with_files (w : Fake) (files : gmap string (result ScrapedData)) : Fake :=
  mkFake files (fk_today w) (fk_tmdb w) (fk_collections w) (fk_tags w)
    (fk_movies w) (fk_next w) (fk_radarr_up w).

Definition with_collections (w : Fake) (cs : list Collection) (next : Z) : Fake :=
  mkFake (fk_files w) (fk_today w) (fk_tmdb w) cs (fk_tags w) (fk_movies w)
    next (fk_radarr_up w).

Definition with_tags (w : Fake) (tags : list Tag) (next : Z) : Fake :=
  mkFake (fk_files w) (fk_today w) (fk_tmdb w) (fk_collections w) tags
    (fk_movies w) next (fk_radarr_up w).

Definition with_movies (w : Fake) (movies : list Movie) (next : Z) : Fake :=
  mkFake (fk_files w) (fk_today w) (fk_tmdb w) (fk_collections w) (fk_tags w)
    movies next (fk_radarr_up w).

Definition with_radarr_up (w : Fake) (up : option nat) : Fake :=
  mkFake (fk_files w) (fk_today w) (fk_tmdb w) (fk_collections w) (fk_tags w)
    (fk_movies w) (fk_next w) up.

Definition set_c_ID (c : Collection) (id : string) : Collection :=
  mkCollection id (c_Name c) (c_VisibilityConfig c) (c_MaxItems c) (c_Type c)
    (c_Subtype c) (c_MediaType c) (c_LibraryIds c) (c_LibraryNames c)
    (c_Template c) (c_SortOrderHome c) (c_SortOrderLibrary c)
    (c_RandomizeHomeOrder c) (c_RandomizeOrder c) (c_AutoPoster c)
    (c_AutoPosterTemplate c) (c_SearchMissingMovies c) (c_AutoApproveMovies c)
    (c_DownloadMode c) (c_RadarrInstanceID c) (c_DirectDownloadRadarrProfileID c)
    (c_DirectDownloadRadarrRootFolder c) (c_RadarrTagID c).

(** The text after the first occurrence of [marker] in [s]. *)
Fixpoint after_marker (marker s : string) : option string :=
  match strip_prefix marker s with
  | Some r => Some r
  | None =>
      match s with
      | EmptyString => None
      | String _ r => after_marker marker r
      end
  end.

Fixpoint assoc {A : Type} (k : string) (l : list (string * A)) : option A :=
  match l with
  | [] => None
  | (k', a) :: l' => if String.eqb k k' then Some a else assoc k l'
  end.

(** What is read back from a written snapshot: [rawMD] is not exported, so
    the JSON text does not hold it. *)
Definition marshalled (data : ScrapedData) : ScrapedData :=
  mkScrapedData (Date data)
    ((λ s, set_Movies s
             ((λ f, mkFilm (Title f) "" (Director f) (Year f) (TMDBID f) (IMDBID f))
                <$> Movies s))
       <$> Collections data).

Definition fake_http (req : Request) (w : Fake) : result Response * Fake :=
  let not_found := (Ok (mkResponse 404 "not found" None (Err "not JSON")), w) in
  match after_marker "/api/v1/" (rq_URL req) with
  | None => not_found
  | Some endpoint =>
      if String.eqb (rq_Method req) "GET" && String.eqb endpoint "collections" then
        (Ok (mkResponse 200 "collections" None (Ok (fk_collections w))), w)
      else if String.eqb (rq_Method req) "POST"
              && String.eqb endpoint "collections/create" then
        match rq_Body req with
        | None => (Ok (mkResponse 400 "no body" None (Err "not JSON")), w)
        | Some c =>
            let created := set_c_ID c (fmt_d (fk_next w)) in
            (Ok (mkResponse 200 "created" None (Ok [created])),
             with_collections w (fk_collections w ++ [created]) (fk_next w + 1))
        end
      else if String.eqb (rq_Method req) "DELETE" then
        match strip_prefix "collections/" endpoint with
        | None => not_found
        | Some id =>
            if existsb (λ c, String.eqb (c_ID c) id) (fk_collections w) then
              (Ok (mkResponse 200 "deleted" None (Err "not JSON")),
               with_collections w
                 (List.filter (λ c, negb (String.eqb (c_ID c) id)) (fk_collections w))
                 (fk_next w))
            else not_found
        end
      else not_found
  end.

(** [http.NewRequest] in this world: a URL that holds a control character
    (a byte below 32, or 127), or a space in its host, is rejected; every
    other URL is taken. *)
Fixpoint has_control (s : string) : bool :=
  match s with
  | EmptyString => false
  | String c r =>
      let n := N_of_ascii c in
      (n <? 32)%N || (n =? 127)%N || has_control r
  end.

Fixpoint up_to_slash (s : string) : string :=
  match s with
  | EmptyString => EmptyString
  | String c r => if byte_eqb 47 c then EmptyString else String c (up_to_slash r)
  end.

(** The host of a URL: the text between [://] and the next slash. *)
Definition url_host (url : string) : string :=
  match after_marker "://" url with
  | Some r => up_to_slash r
  | None => EmptyString
  end.

Definition fake_new_request (url : string) : result () :=
  if has_control url then Err "net/url: invalid control character in URL"
  else if has_byte 32 (url_host url) then Err "invalid character in host name"
  else Ok ().

(** A call to the Radarr server: refused once the server is down. *)
Definition fake_radarr {A : Type} (w : Fake) (answer : Fake → result A * Fake)
  : result A * Fake :=
  match fk_radarr_up w with
  | None => answer w
  | Some (S n) => answer (with_radarr_up w (Some n))
  | Some O => (Err "connection refused", w)
  end.

Definition fake_handle (X : Type) (c : Call X) (w : Fake) : X * Fake :=
  match c in Call X return X * Fake with
  | OsReadFile path =>
      (match fk_files w !! path with
       | Some content => Ok content
       | None => Err "no such file or directory"
       end, w)
  | OsWriteFile filename data =>
      (Ok (), with_files w (<[filename := Ok (marshalled data)]> (fk_files w)))
  | TimeNow => (fk_today w, w)
  | TimeSleep _ => ((), w)
  | RangeMap m => (map_to_list m, w)
  | HttpGet q =>
      (match assoc (q_query q) (fk_tmdb w) with
       | Some r => r
       | None => Ok (mkTMDBResponse 200 (Ok []))
       end, w)
  | HttpNewRequest _ url => (fake_new_request url, w)
  | HttpDo req => fake_http req w
  | RadarrGetTags => fake_radarr w (λ w, (Ok (fk_tags w), w))
  | RadarrAddTag label =>
      fake_radarr w (λ w,
        let tag := mkTag (fk_next w) label in
        (Ok tag, with_tags w (fk_tags w ++ [tag]) (fk_next w + 1)))
  | RadarrDeleteTag tagID =>
      fake_radarr w (λ w,
        (Ok (),
         with_tags w (List.filter (λ t, negb (tag_ID t =? tagID)) (fk_tags w))
           (fk_next w)))
  | RadarrAddMovie input =>
      fake_radarr w (λ w,
        if existsb (λ m, mv_TmdbID m =? in_TmdbID input) (fk_movies w) then
          (Err "This movie has already been added", w)
        else
          let movie :=
            mkMovie (fk_next w) (in_Title input) (in_TmdbID input) (in_Tags input) in
          (Ok movie, with_movies w (fk_movies w ++ [movie]) (fk_next w + 1)))
  | RadarrGetMovie tmdbID =>
      fake_radarr w (λ w,
        (Ok (List.filter (λ m, mv_TmdbID m =? tmdbID) (fk_movies w)), w))
  | RadarrGetMovieByID movieID =>
      fake_radarr w (λ w,
        (match List.find (λ m, mv_ID m =? movieID) (fk_movies w) with
         | Some m => Ok m
         | None => Err "NotFound"
         end, w))
  | RadarrUpdateMovie movieID movie _ =>
      fake_radarr w (λ w,
        if existsb (λ m, mv_ID m =? movieID) (fk_movies w) then
          (Ok movie,
           with_movies w
             ((λ m, if mv_ID m =? movieID then movie else m) <$> fk_movies w)
             (fk_next w))
        else (Err "NotFound", w))
  end.

#[global] Instance fake_Handler : Handler Fake := fake_handle.

(** A world with nothing in it, on a given day. *)
Definition fake_empty : Fake :=
  mkFake ∅ "2025-01-15" [] [] [] [] 1 None.

(** ** Reading a trace *)

(** The requests to the movie database in a trace, with their answers. *)
Definition tmdb_lookup (e : Event) : option (TMDBQuery * result TMDBResponse) :=
  match e with
  | Ev c x =>
      match c in Call X return X → option (TMDBQuery * result TMDBResponse) with
      | HttpGet q => λ r, Some (q, r)
      | _ => λ _, None
      end x
  end.

Definition tmdb_lookups (evs : list Event) : list (TMDBQuery * result TMDBResponse) :=
  omap tmdb_lookup evs.

(** The requests to the collection service in a trace. *)
Definition http_request (e : Event) : option Request :=
  match e with
  | Ev c _ =>
      match c with
      | HttpDo req => Some req
      | _ => None
      end
  end.

Definition http_requests (evs : list Event) : list Request := omap http_request evs.

(** The requests that [http.NewRequest] is asked for in a trace: the
    method, the URL, and whether the request could be created. *)
Definition new_request (e : Event) : option (string * string * result ()) :=
  match e with
  | Ev c x =>
      match c in Call X return X → option (string * string * result ()) with
      | HttpNewRequest method url => λ r, Some (method, url, r)
      | _ => λ _, None
      end x
  end.

Definition new_requests (evs : list Event) : list (string * string * result ()) :=
  omap new_request evs.

(** The [DELETE] requests that a trace asks for: the URL, and whether the
    request could be created. *)
Definition delete_calls (evs : list Event) : list (string * result ()) :=
  omap (λ n, if String.eqb n.1.1 "DELETE" then Some (n.1.2, n.2) else None)
    (new_requests evs).

(** The URLs, among those asked for, of the requests that could be
    created. *)
Definition created (calls : list (string * result ())) : list string :=
  omap (λ d, match d.2 with Ok _ => Some d.1 | Err _ => None end) calls.

(** The URLs of the [DELETE] requests sent in a trace. *)
Definition delete_urls (evs : list Event) : list string :=
  omap (λ req, if String.eqb (rq_Method req) "DELETE" then Some (rq_URL req) else None)
    (http_requests evs).

(** The collections posted for creation in a trace. *)
Definition posted_collections (evs : list Event) : list Collection :=
  omap (λ req, if String.eqb (rq_Method req) "POST" then rq_Body req else None)
    (http_requests evs).

(** The calls to the Radarr server in a trace. *)
Inductive RadarrOp :=
| OpGetTags
| OpAddTag (label : string)
| OpDeleteTag (tagID : Z)
| OpAddMovie (input : AddMovieInput)
| OpGetMovie (tmdbID : Z)
| OpGetMovieByID (movieID : Z)
| OpUpdateMovie (movieID : Z) (movie : Movie) (moveFiles : bool).

Definition radarr_op (e : Event) : option RadarrOp :=
  match e with
  | Ev c _ =>
      match c with
      | RadarrGetTags => Some OpGetTags
      | RadarrAddTag label => Some (OpAddTag label)
      | RadarrDeleteTag tagID => Some (OpDeleteTag tagID)
      | RadarrAddMovie input => Some (OpAddMovie input)
      | RadarrGetMovie tmdbID => Some (OpGetMovie tmdbID)
      | RadarrGetMovieByID movieID => Some (OpGetMovieByID movieID)
      | RadarrUpdateMovie movieID movie moveFiles =>
          Some (OpUpdateMovie movieID movie moveFiles)
      | _ => None
      end
  end.

Definition radarr_ops (evs : list Event) : list RadarrOp := omap radarr_op evs.

(** ** The specification's wording, where it is compared with the code *)

(** The request of [searchTMDBWithTitle] for a title variant. *)
Definition search_query (title : string) (year : Z) (apiKey : string) : TMDBQuery :=
  mkTMDBQuery apiKey title (if 0 <? year then Some year else None).

(** A request that did not give a [200] response: a transport error or
    another status. *)
Definition lookup_failed (r : result TMDBResponse) : Prop :=
  match r with
  | Err _ => True
  | Ok resp => tr_StatusCode resp ≠ 200
  end.

(** "A transport error terminates the whole catalog-matching pass": no
    request follows one that failed in transport. *)
Definition transport_error_ends_pass (evs : list Event) : Prop :=
  ∀ pre q e post, tmdb_lookups evs = pre ++ (q, Err e) :: post → post = [].

(** [toDelete] as the specification words it: the existing collections whose
    name starts with the prefix and is not expected. *)
Definition toDelete_by_prefix (expectedNames : gset string)
    (existing : list Collection) : list Collection :=
  filter (λ c, String.prefix "Metrograph: " (c_Name c) = true
               ∧ c_Name c ∉ expectedNames) existing.

(** The collections that the deleting loop of [SyncCollectionsFromJSON]
    deletes. *)
Definition toDelete (expectedNames : gset string) (existing : list Collection)
  : list Collection :=
  filter (λ c, owned_name (c_Name c) = true ∧ c_Name c ∉ expectedNames) existing.

(** The URL of the request that deletes a collection. *)
Definition delete_url (a : AgregarrConfig) (c : Collection) : string :=
  ag_Host a +:+ "/api/v1/" +:+ "collections/" +:+ c_ID c.

(** The calls of a pass that only deletes: reading the snapshot and visiting
    its map, listing and deleting collections, listing and deleting tags. *)
Definition delete_only (e : Event) : bool :=
  match e with
  | Ev c _ =>
      match c with
      | OsReadFile _ | RangeMap _ | RadarrGetTags | RadarrDeleteTag _ => true
      | HttpNewRequest method _ =>
          String.eqb method "GET" || String.eqb method "DELETE"
      | HttpDo req =>
          (String.eqb (rq_Method req) "GET" || String.eqb (rq_Method req) "DELETE")
          && bool_decide (rq_Body req = None)
      | _ => false
      end
  end.

(** The calls of the creating pass over the snapshot: the tags are listed
    and collections are posted; no collection is listed and no tag is added. *)
Definition create_call (e : Event) : bool :=
  match e with
  | Ev c _ =>
      match c with
      | RadarrGetTags => true
      | HttpNewRequest method _ => String.eqb method "POST"
      | HttpDo req =>
          String.eqb (rq_Method req) "POST" && bool_decide (is_Some (rq_Body req))
      | _ => false
      end
  end.

(** "A collection is created only for an eligible series that is not
    already represented downstream by name." *)
Definition creates_only_missing_eligible (existing : list Collection)
    (results : list (string * Series)) (created : list Collection) : Prop :=
  let names := c_Name <$> existing in
  Forall (λ c, (c_Name c ∉ names)
               ∧ ∃ e, e ∈ results ∧ 2 < validMovies e.2
                      ∧ c_Name c = "Metrograph: " +:+ Name e.2)
    created.


(** ** The trace of a client call *)

(** One [makeRequest]: the request is created, and sent when it could be
    created. *)
Definition makes_request (a : AgregarrConfig) (method endpoint : string)
    (body : option Collection) (evs : list Event) : Prop :=
  let url := ag_Host a +:+ "/api/v1/" +:+ endpoint in
  (∃ e, evs = [Ev (HttpNewRequest method url) (Err e)])
  ∨ (∃ r, evs = [Ev (HttpNewRequest method url) (Ok ());
                 Ev (HttpDo (mkRequest method url (ag_APIKey a) body)) r]).

(** A listing of the tags in which no tag has the label, or which failed. *)
Definition tag_missing (label : string) (listed : result (list Tag)) : Prop :=
  match listed with
  | Ok tags => find_tag label tags = None
  | Err _ => True
  end.

(** One [DeleteTag] for a label: the tags are listed and the first tag with
    the label, when there is one, is deleted. *)
Definition deletes_tag (label : string) (evs : list Event) : Prop :=
  (∃ listed, evs = [Ev RadarrGetTags listed] ∧ tag_missing label listed)
  ∨ (∃ tags tag deleted,
       evs = [Ev RadarrGetTags (Ok tags); Ev (RadarrDeleteTag (tag_ID tag)) deleted]
       ∧ find_tag label tags = Some tag).

(** What the deleting loop of [SyncCollectionsFromJSON] does for a
    collection that it deletes: the [DELETE] request for its id, and after
    it the deletion of the tag named by its subtype when the subtype is
    [metrograph-] followed by at least one more byte. *)
Definition deletes_collection (a : AgregarrConfig) (c : Collection)
    (evs : list Event) : Prop :=
  ∃ request tag,
    evs = request ++ tag
    ∧ makes_request a "DELETE" ("collections/" +:+ c_ID c) None request
    ∧ if owned_subtype (c_Subtype c) then deletes_tag (c_Subtype c) tag
      else tag = [].

(** "(and only for collections whose subtype starts with [metrograph-])":
    every listed collection whose deletion a trace sends has such a
    subtype. *)
Definition deletes_owned_subtypes_only (a : AgregarrConfig)
    (existing : list Collection) (evs : list Event) : Prop :=
  ∀ c, c ∈ existing → delete_url a c ∈ delete_urls evs →
       String.prefix "metrograph-" (c_Subtype c) = true.

(** What the loop of [CreateCollectionsFromJSON] does for an entry whose
    tag is listed: the tags are listed, and the collection of the series,
    with the id of the first tag that has the label, is posted. *)
Definition creates_collection (radarrConfig : RadarrConfig) (a : AgregarrConfig)
    (e : string * Series) (evs : list Event) : Prop :=
  ∃ tags tag post,
    evs = Ev RadarrGetTags (Ok tags) :: post
    ∧ find_tag ("metrograph-" +:+ e.1) tags = Some tag
    ∧ makes_request a "POST" "collections/create"
        (Some (new_collection radarrConfig e.1 e.2 (tag_ID tag))) post.

(** "len(A) plus the cardinality of the set {f in B : f.title not in
    A.titles}": the films of that set counted once each. *)
Definition merge_length_by_set (A B : list Film) : nat :=
  length A + length (remove_dups (fresh_films A B)).
(** ** Further readings of a trace *)

(** The trace of requests to the movie database that are each made after a
    pause of 250 ms. *)
Definition paced (lookups : list (TMDBQuery * result TMDBResponse)) : list Event :=
  lookups ≫= (λ l, [Ev (TimeSleep 250) (); Ev (HttpGet l.1) l.2]).

(** [sub] occurs in [s]. *)
Definition occurs_in (sub s : string) : Prop :=
  ∃ pre post, s = pre +:+ sub +:+ post.


(** An answer of the movie database with status 200 and no candidate. *)
Definition no_candidate (l : TMDBQuery * result TMDBResponse) : Prop :=
  l.2 = Ok (mkTMDBResponse 200 (Ok [])).

(** An answer that ends a search with an error: the request failed, the
    status is not 200, or the body is not the expected JSON. *)
Definition failed_answer (l : TMDBQuery * result TMDBResponse) : Prop :=
  match l.2 with
  | Err _ => True
  | Ok resp =>
      tr_StatusCode resp ≠ 200
      ∨ match tr_Results resp with
        | Err _ => True
        | Ok _ => False
        end
  end.



(** The collection name that the passes give a series. *)
Definition collection_name (series : Series) : string :=
  "Metrograph: " +:+ Name series.

(** A collection is expected by a snapshot when a series of the snapshot
    with two resolved films or more gives it its name. *)
Definition expected_by (results : list (string * Series)) (name : string) : Prop :=
  Exists (λ e, 2 ≤ validMovies e.2 ∧ name = collection_name e.2) results.

#[global] Instance expected_by_dec (results : list (string * Series))
    (name : string) : Decision (expected_by results name) :=
  Exists_dec _ results.

(** ** Sample data *)

Definition film_a : Film := mkFilm "Carol" "" "Todd Haynes" 2015 258480 "".
Definition film_b : Film := mkFilm "Safe" "" "Todd Haynes" 1995 0 "".
Definition film_a_rescraped : Film := mkFilm "Carol" "" "" 0 0 "".

Definition resolved (title : string) (id : Z) : Film := mkFilm title "" "" 0 id "".

(** A series with exactly two resolved films (and one unresolved), and one
    with three. *)
Definition series_two : Series :=
  mkSeries "Two" "/series/?vista_series_id=s2" "s2"
    [resolved "A" 101; resolved "B" 102; resolved "C" 0].

Definition series_three : Series :=
  mkSeries "Three" "/series/?vista_series_id=s3" "s3"
    [resolved "D" 201; resolved "E" 202; resolved "F" 203].

Definition radarr_config : RadarrConfig :=
  mkRadarrConfig "http://radarr" "rk" "/movies" 4 true false.

Definition agregarr_config : AgregarrConfig :=
  mkAgregarrConfig "http://agregarr" "ak".

(** A world whose snapshot file holds the given series. *)
Definition fake_with_snapshot (entries : list (string * Series)) : Fake :=
  with_files fake_empty
    {[ "2025-01-14.json" := Ok (mkScrapedData "2025-01-14" (list_to_map entries)) ]}.

(** A movie database that cannot be reached for the title [A] and knows the
    title [B]. *)
Definition fake_tmdb : Fake :=
  mkFake ∅ "2025-01-15"
    [("A", Err "dial tcp: i/o timeout");
     ("B", Ok (mkTMDBResponse 200 (Ok [mkTMDBMovie 7 "B" "1999-01-01" ""])))]
    [] [] [] 1 None.

(** A downstream collection whose name is the prefix alone: the collection
    of a series with an empty name. *)
Definition collection_prefix_only : Collection :=
  new_collection radarr_config "s0" (mkSeries "" "" "s0" []) 5.

Definition fake_prefix_only : Fake :=
  with_collections (fake_with_snapshot [])
    [set_c_ID collection_prefix_only "c1"] 2.

(** A downstream state that already has the collection and the tag of
    [series_three]. *)
Definition fake_already_created : Fake :=
  with_tags
    (with_collections (fake_with_snapshot [("s3", series_three)])
       [set_c_ID (new_collection radarr_config "s3" series_three 9) "c1"] 2)
    [mkTag 9 "metrograph-s3"] 10.

(** A Radarr server that has one movie, tagged [3]. *)
Definition fake_has_movie : Fake :=
  mkFake ∅ "2025-01-15" [] [] [mkTag 3 "metrograph-s1"; mkTag 4 "metrograph-s2"]
    [mkMovie 1 "Carol" 258480 [3]] 5 None.

(** The same server, which answers one more call and is then unreachable. *)
Definition fake_going_down : Fake := with_radarr_up fake_has_movie (Some 1%nat).

(** The reconciliation example of the specification: the snapshot expects
    [Metrograph: X]; downstream there are [Metrograph: X], [Metrograph: Y]
    and [Unrelated]. *)
Definition series_x : Series :=
  mkSeries "X" "/series/?vista_series_id=sx" "sx"
    [resolved "D" 201; resolved "E" 202; resolved "F" 203].

Definition fake_x_y_unrelated : Fake :=
  with_tags
    (with_collections (fake_with_snapshot [("sx", series_x)])
       [set_c_ID (new_collection radarr_config "sx" series_x 7) "c1";
        set_c_ID (new_collection radarr_config "sy" (mkSeries "Y" "" "sy" []) 8) "c2";
        Collection_with "c3" "Unrelated"] 4)
    [mkTag 7 "metrograph-sx"; mkTag 8 "metrograph-sy"] 9.


(** A downstream collection with the name prefix whose subtype is not a tag
    of this system, in a world whose snapshot does not expect it and whose
    Radarr has a tag of that name. *)
Definition collection_foreign_subtype : Collection :=
  mkCollection "c1" "Metrograph: Old" (mkVisibilityConfig true true true) 10
    "trakt" "trending" "movie" ["1"] [] "Metrograph: Old" 0 0 false false
    true 0 true true "direct" 0 4 "/movies" 0.

Definition fake_foreign_subtype : Fake :=
  with_tags
    (with_collections (fake_with_snapshot [("sx", series_x)])
       [collection_foreign_subtype] 2)
    [mkTag 7 "trending"] 8.

(** A configuration whose host [http.NewRequest] rejects. *)
Definition agregarr_bad_host : AgregarrConfig :=
  mkAgregarrConfig "http://bad host" "ak".
(** Two scraped films with distinct titles. *)
Definition film_c : Film := mkFilm "Poison" "" "" 1991 0 "".

(** A previous snapshot with [series_three] and a series that is no longer
    scraped, and a new scrape that has [series_three] again, unresolved and
    with one more film, and [series_two]. *)
Definition series_gone : Series :=
  mkSeries "Gone" "/series/?vista_series_id=s9" "s9"
    [resolved "P" 901; resolved "Q" 902; resolved "R" 903].

Definition series_three_rescraped : Series :=
  mkSeries "Three" "/series/?vista_series_id=s3" "s3"
    [resolved "D" 0; resolved "G" 0].

Definition previous_snapshot : ScrapedData :=
  mkScrapedData "2025-01-14"
    (list_to_map [("s3", series_three); ("s9", series_gone)]).

Definition new_scrape : gmap string Series :=
  list_to_map [("s3", series_three_rescraped); ("s2", series_two)].

Definition fake_store : Fake :=
  with_files fake_empty {[ "2025-01-14.json" := Ok previous_snapshot ]}.


(** Scraped films with their metadata line: a bare year, the year first,
    and the director first. *)
Definition film_bare_year : Film := mkFilm "Parasite" "2019" "" 0 0 "".
Definition film_year_first : Film := mkFilm "Parasite" "2019 / 132min / DCP" "" 0 0 "".
Definition film_director_first : Film :=
  mkFilm "Carol" "Todd Haynes / 2015 / 118min / DCP" "" 0 0 "".

(** A scrape with a series that is stored and one that is not. *)
Definition scrape_mixed : gmap string Series :=
  list_to_map [("s3", series_three); ("s2", series_two)].
(** * Properties *)

(** ** Running a computation *)

Section Run_facts.
Context {W : Type}.

Lemma value_ret {A : Type} (a : A) (w : W) : value (ret a w) = a.
Proof. reflexivity. Qed.

Lemma world_ret {A : Type} (a : A) (w : W) : world (ret a w) = w.
Proof. reflexivity. Qed.

Lemma events_ret {A : Type} (a : A) (w : W) : events (ret a w) = [].
Proof. reflexivity. Qed.

Lemma value_bind {A B : Type} (m : M W A) (k : A → M W B) (w : W) :
  value (bind m k w) = value (k (value (m w)) (world (m w))).
Proof. reflexivity. Qed.

Lemma world_bind {A B : Type} (m : M W A) (k : A → M W B) (w : W) :
  world (bind m k w) = world (k (value (m w)) (world (m w))).
Proof. reflexivity. Qed.

Lemma events_bind {A B : Type} (m : M W A) (k : A → M W B) (w : W) :
  events (bind m k w) = events (m w) ++ events (k (value (m w)) (world (m w))).
Proof. reflexivity. Qed.

Lemma value_call `{Handler W} {X : Type} (c : Call X) (w : W) :
  value (call c w) = (handle X c w).1.
Proof. reflexivity. Qed.

Lemma world_call `{Handler W} {X : Type} (c : Call X) (w : W) :
  world (call c w) = (handle X c w).2.
Proof. reflexivity. Qed.

Lemma events_call `{Handler W} {X : Type} (c : Call X) (w : W) :
  events (call c w) = [Ev c (handle X c w).1].
Proof. reflexivity. Qed.

Lemma for_range_cons {A : Type} (body : A → M W ()) (a : A) (l : list A) :
  for_range body (a :: l) = (do _ ← body a; for_range body l).
Proof. reflexivity. Qed.

Lemma for_each_cons {A R : Type} (body : A → M W (option R)) (a : A) (l : list A) :
  for_each body (a :: l)
  = (do r ← body a;
     match r with
     | Some r => ret (Some r)
     | None => for_each body l
     end).
Proof. reflexivity. Qed.
End Run_facts.

#[local] Arguments bind : simpl never.
#[local] Arguments call : simpl never.
#[local] Arguments for_range : simpl never.
#[local] Arguments for_each : simpl never.

#[local] Arguments searchTMDBWithTitle : simpl never.
#[local] Arguments SearchTMDB_try : simpl never.
#[local] Arguments SearchTMDB : simpl never.
#[local] Arguments populate_film : simpl never.
#[local] Arguments writeToFile : simpl never.
#[local] Arguments UpdateFileStore : simpl never.
#[local] Arguments CreateTag : simpl never.
#[local] Arguments GetMovieByTMDBID : simpl never.
#[local] Arguments UpdateMovieTags : simpl never.
#[local] Arguments AddMovie : simpl never.
#[local] Arguments GetTagIDByName : simpl never.
#[local] Arguments DeleteTag : simpl never.
#[local] Arguments process_series : simpl never.
#[local] Arguments ProcessJSONToRadarr : simpl never.
#[local] Arguments makeRequest : simpl never.
#[local] Arguments CreateCollection : simpl never.
#[local] Arguments GetCollections : simpl never.
#[local] Arguments DeleteCollection : simpl never.
#[local] Arguments sync_collection : simpl never.
#[local] Arguments sync_delete : simpl never.
#[local] Arguments SyncCollectionsFromJSON : simpl never.
#[local] Arguments create_collection : simpl never.
#[local] Arguments CreateCollectionsFromJSON : simpl never.

#[local] Arguments containsAny : simpl never.
#[local] Arguments merge_tags : simpl never.
#[local] Arguments toDelete : simpl never.
#[local] Arguments tmdb_lookups : simpl never.
#[local] Arguments http_requests : simpl never.
#[local] Arguments delete_urls : simpl never.
#[local] Arguments posted_collections : simpl never.
#[local] Arguments radarr_ops : simpl never.
#[local] Arguments new_requests : simpl never.
#[local] Arguments delete_calls : simpl never.
#[local] Arguments created : simpl never.

(** One step of running a computation that is written as a [bind], a [call]
    or a [ret]. *)
Ltac run_step :=
  match goal with
  | |- context [value (bind ?m ?k ?w)] => rewrite (value_bind m k w)
  | |- context [world (bind ?m ?k ?w)] => rewrite (world_bind m k w)
  | |- context [events (bind ?m ?k ?w)] => rewrite (events_bind m k w)
  | |- context [value (call ?c ?w)] => rewrite (value_call c w)
  | |- context [world (call ?c ?w)] => rewrite (world_call c w)
  | |- context [events (call ?c ?w)] => rewrite (events_call c w)
  | |- context [value (ret ?a ?w)] => rewrite (value_ret a w)
  | |- context [world (ret ?a ?w)] => rewrite (world_ret a w)
  | |- context [events (ret ?a ?w)] => rewrite (events_ret a w)
  end.

Ltac run := repeat run_step; cbn.

(** ** Reading a trace that is a concatenation *)

Lemma tmdb_lookups_app (evs1 evs2 : list Event) :
  tmdb_lookups (evs1 ++ evs2) = tmdb_lookups evs1 ++ tmdb_lookups evs2.
Proof. apply omap_app. Qed.

Lemma http_requests_app (evs1 evs2 : list Event) :
  http_requests (evs1 ++ evs2) = http_requests evs1 ++ http_requests evs2.
Proof. apply omap_app. Qed.

Lemma delete_urls_app (evs1 evs2 : list Event) :
  delete_urls (evs1 ++ evs2) = delete_urls evs1 ++ delete_urls evs2.
Proof.
  unfold delete_urls. by rewrite http_requests_app, omap_app.
Qed.

Lemma radarr_ops_app (evs1 evs2 : list Event) :
  radarr_ops (evs1 ++ evs2) = radarr_ops evs1 ++ radarr_ops evs2.
Proof. apply omap_app. Qed.

Lemma posted_collections_app (evs1 evs2 : list Event) :
  posted_collections (evs1 ++ evs2)
  = posted_collections evs1 ++ posted_collections evs2.
Proof. unfold posted_collections. by rewrite http_requests_app, omap_app. Qed.


Lemma new_requests_app (evs1 evs2 : list Event) :
  new_requests (evs1 ++ evs2) = new_requests evs1 ++ new_requests evs2.
Proof. apply omap_app. Qed.

Lemma delete_calls_app (evs1 evs2 : list Event) :
  delete_calls (evs1 ++ evs2) = delete_calls evs1 ++ delete_calls evs2.
Proof. unfold delete_calls. by rewrite new_requests_app, omap_app. Qed.

Lemma created_app (calls1 calls2 : list (string * result ())) :
  created (calls1 ++ calls2) = created calls1 ++ created calls2.
Proof. apply omap_app. Qed.
(** ** CatalogMerger *)

Section dedupeFilms_facts.

Lemma dedupe_copy_foldl (colA : list Film) (acc : list Film * gset string) :
  foldl dedupe_copy acc colA
  = (acc.1 ++ colA, list_to_set (titles colA) ∪ acc.2).
Proof.
  revert acc. induction colA as [|f colA IH]; intros [r0 s0]; simpl.
  - rewrite app_nil_r. f_equal. set_solver.
  - rewrite IH. simpl. rewrite <- app_assoc. simpl. f_equal.
    apply set_eq. set_solver.
Qed.

Lemma dedupe_append_foldl (added : gset string) (colB r0 : list Film) :
  foldl (dedupe_append added) r0 colB
  = r0 ++ filter (λ f, Title f ∉ added) colB.
Proof.
  revert r0. induction colB as [|f colB IH]; intros r0; simpl.
  - by rewrite app_nil_r.
  - rewrite IH. unfold dedupe_append.
    destruct (decide (Title f ∈ added)) as [Hin|Hnin].
    + rewrite filter_cons_False; [done|]. by intros Hn; apply Hn.
    + rewrite filter_cons_True; [|done]. by rewrite <- app_assoc.
Qed.

Lemma dedupeFilms_unfold (colA colB : list Film) :
  dedupeFilms colA colB = colA ++ fresh_films colA colB.
Proof.
  unfold dedupeFilms, fresh_films.
  rewrite dedupe_copy_foldl. simpl.
  rewrite dedupe_append_foldl. f_equal.
  apply list_filter_iff. intros f.
  rewrite elem_of_union, elem_of_list_to_set. set_solver.
Qed.

Lemma fresh_films_self (colA : list Film) : fresh_films colA colA = [].
Proof.
  unfold fresh_films, titles.
  assert (H : ∀ l : list Film, (∀ f, f ∈ l → Title f ∈ Title <$> colA) →
            filter (λ f, Title f ∉ Title <$> colA) l = []).
  { induction l as [|f l IH]; intros Hl; [done|].
    rewrite filter_cons_False.
    - apply IH. intros g Hg. apply Hl. by right.
    - intros Hn. apply Hn, Hl. by left. }
  apply H. intros f Hf. by apply list_elem_of_fmap_2.
Qed.

End dedupeFilms_facts.

(** C5. [dedupeFilms existingFilms newFilms] is [existingFilms] in its
    original order, followed by every film of [newFilms] whose title is not
    (exact byte-wise match) the title of a film of [existingFilms], in
    [newFilms] order. *)
Theorem dedupeFilms_existing_then_fresh (existingFilms newFilms : list Film) :
  dedupeFilms existingFilms newFilms
  = existingFilms ++ filter (λ f, Title f ∉ titles existingFilms) newFilms.
Proof. apply dedupeFilms_unfold. Qed.

(** C6. A resolved identifier is monotonic under merging: a film of
    [existingFilms] with [TMDBID > 0] sits unchanged at the same position of
    the merged sequence, whatever [newFilms] is. *)
Theorem dedupeFilms_keeps_resolved
    (existingFilms newFilms : list Film) (i : nat) (f : Film) :
  existingFilms !! i = Some f →
  0 < TMDBID f →
  dedupeFilms existingFilms newFilms !! i = Some f
  ∧ (∀ g, dedupeFilms existingFilms newFilms !! i = Some g → TMDBID g ≠ 0).
Proof.
  intros Hi Hpos. rewrite dedupeFilms_unfold.
  assert (Hl : (existingFilms ++ fresh_films existingFilms newFilms) !! i = Some f).
  { by apply lookup_app_l_Some. }
  split; [done|].
  intros g Hg. rewrite Hl in Hg. injection Hg as <-. lia.
Qed.


Lemma dedupeFilms_keeps_resolved_witness :
  dedupeFilms [film_b; film_a] [film_a_rescraped; film_b] !! 1%nat = Some film_a
  ∧ (∀ g, dedupeFilms [film_b; film_a] [film_a_rescraped; film_b] !! 1%nat = Some g
          → TMDBID g ≠ 0).
Proof.
  apply (dedupeFilms_keeps_resolved [film_b; film_a] [film_a_rescraped; film_b]
           1%nat film_a).
  - reflexivity.
  - simpl. lia.
Defined.

(** C7 (amended). The merged length is [len A] plus the number of entries
    of [B] whose title is not a title of [A], each counted as often as [B]
    lists it; that is the cardinality of the set of those films when [B]
    lists none of them twice.  Merging a sequence with itself gives the
    sequence back. *)
Theorem dedupeFilms_length_idempotent (A B : list Film) :
  length (dedupeFilms A B)
  = (length A + length (filter (λ f, Title f ∉ titles A) B))%nat
  ∧ (NoDup (filter (λ f, Title f ∉ titles A) B) →
     length (dedupeFilms A B) = merge_length_by_set A B)
  ∧ dedupeFilms A A = A.
Proof.
  split; [|split].
  - rewrite dedupeFilms_unfold. by rewrite length_app.
  - intros Hnodup. rewrite dedupeFilms_unfold, length_app.
    unfold merge_length_by_set, fresh_films.
    assert (Hsame : remove_dups (filter (λ f, Title f ∉ titles A) B)
                    = filter (λ f, Title f ∉ titles A) B).
    { induction Hnodup as [|f l Hf Hl IH]; [done|].
      cbn [remove_dups]. rewrite IH. by destruct (decide_rel elem_of f l). }
    by rewrite Hsame.
  - rewrite dedupeFilms_unfold, fresh_films_self. by rewrite app_nil_r.
Qed.

(** C7, as stated, fails: a new film that [B] lists twice is appended
    twice, and is one element of the set. *)
Lemma dedupeFilms_counts_repeated_entries :
  dedupeFilms [] [film_c; film_c] = [film_c; film_c]
  ∧ length (dedupeFilms [] [film_c; film_c]) = 2%nat
  ∧ merge_length_by_set [] [film_c; film_c] = 1%nat
  ∧ length (dedupeFilms [] [film_c; film_c])
    ≠ merge_length_by_set [] [film_c; film_c].
Proof.
  assert (Hmerge : dedupeFilms [] [film_c; film_c] = [film_c; film_c])
    by (vm_compute; reflexivity).
  assert (Hset : merge_length_by_set [] [film_c; film_c] = 1%nat)
    by (vm_compute; reflexivity).
  rewrite Hmerge, Hset. repeat split. cbn. lia.
Qed.

(** ** TitleNormalizer *)

Example cleanTitle_carol :
  cleanTitle "ACE Presents: Carol [4K DCP]"
  = ["ACE Presents: Carol [4K DCP]"; "ACE Presents: Carol"; "Carol [4K DCP]"; "Carol"].
Proof. vm_compute. reflexivity. Qed.

Example cleanTitle_plain : cleanTitle "Safe" = ["Safe"].
Proof. vm_compute. reflexivity. Qed.

Example cleanTitle_leading_space : cleanTitle " x" = [" x"; "x"; "x"].
Proof. vm_compute. reflexivity. Qed.

Example cleanTitle_trimmed_repeat :
  cleanTitle "a][presents:a]" = ["a][presents:a]"; "a]"; "a]"].
Proof. vm_compute. reflexivity. Qed.

(** C8 (amended). [cleanTitle t] has between one and four entries, the first
    is [t] itself, and every later entry is non-empty and differs from [t];
    so an empty entry occurs only as the first one, when [t] is empty. *)
Theorem cleanTitle_first_is_title (t : string) :
  (1 ≤ length (cleanTitle t) ≤ 4)%nat
  ∧ head (cleanTitle t) = Some t
  ∧ Forall (λ v, v ≠ "" ∧ v ≠ t) (tail (cleanTitle t))
  ∧ (t = "" ∨ Forall (λ v, v ≠ "") (cleanTitle t)).
Proof.
  unfold cleanTitle.
  set (wb := TrimSpace (re_ReplaceAllString t)).
  set (wp := TrimSpace (presentsRe_ReplaceAllString t)).
  set (w2 := TrimSpace (presentsRe_ReplaceAllString wb)).
  destruct (decide (t = "")) as [Ht|Ht].
  - repeat case_bool_decide; simpl; repeat split; try lia; auto;
      repeat constructor; tauto.
  - repeat case_bool_decide; simpl; repeat split; try lia; auto;
      try (right); repeat constructor; tauto.
Qed.

(** C8, as stated, fails at the empty title: its only variant is the empty
    string. *)
Lemma cleanTitle_empty_title_counterexample :
  cleanTitle "" = [""] ∧ ¬ variants_contract "".
Proof.
  split; [vm_compute; reflexivity|].
  intros (_ & _ & _ & Hne). apply Hne. vm_compute. left.
Qed.

(** ** CatalogStore and the eligibility threshold *)

Lemma validMovies_count (series : Series) :
  validMovies series
  = Z.of_nat (length (filter (λ movie, 0 < TMDBID movie) (Movies series))).
Proof.
  unfold validMovies.
  assert (Hgen : ∀ (l : list Film) (n : Z),
            foldl (λ n movie, if 0 <? TMDBID movie then n + 1 else n) n l
            = n + Z.of_nat (length (filter (λ movie, 0 < TMDBID movie) l))).
  { induction l as [|f l IH]; intros n; simpl; [lia|].
    rewrite IH. destruct (Z.ltb_spec 0 (TMDBID f)).
    - rewrite filter_cons_True by done. simpl. lia.
    - rewrite filter_cons_False by lia. lia. }
  rewrite Hgen. lia.
Qed.

(** The filtering loop of [writeToFile] keeps an entry exactly when its
    series has more than two resolved films. *)
Lemma writeToFile_filter_lookup (entries : list (string * Series)) (id : string) :
  NoDup entries.*1 →
  writeToFile_filter entries !! id
  = s ← (list_to_map entries : gmap string Series) !! id;
    if 2 <? validMovies s then Some s else None.
Proof.
  unfold writeToFile_filter.
  assert (Hgen : ∀ (l : list (string * Series)) (acc : gmap string Series),
            NoDup l.*1 →
            foldl (λ filteredResults e,
                     if 2 <? validMovies e.2 then <[e.1 := e.2]> filteredResults
                     else filteredResults) acc l !! id
            = match (list_to_map l : gmap string Series) !! id with
              | Some s => if 2 <? validMovies s then Some s else acc !! id
              | None => acc !! id
              end).
  { induction l as [|[k s] l IH]; intros acc Hnd; simpl; [done|].
    apply NoDup_cons in Hnd as [Hk Hnd]. rewrite IH by done.
    destruct (decide (k = id)) as [->|Hne].
    - rewrite lookup_insert_eq.
      rewrite (not_elem_of_list_to_map_1 _ id Hk).
      destruct (2 <? validMovies s); [by rewrite lookup_insert_eq|done].
    - rewrite lookup_insert_ne by done.
      destruct (list_to_map l !! id) as [s'|]; [destruct (2 <? validMovies s')|];
        try done; destruct (2 <? validMovies s); try done;
        by rewrite lookup_insert_ne. }
  intros Hnd. rewrite Hgen by done. rewrite lookup_empty.
  by destruct (list_to_map entries !! id) as [s|]; simpl;
    [destruct (2 <? validMovies s)|].
Qed.

(** Whatever the order in which the map is visited, [writeToFile] persists
    the series with more than two resolved films and no other. *)
Lemma writeToFile_filter_map (m : gmap string Series)
    (entries : list (string * Series)) :
  entries ≡ₚ map_to_list m →
  writeToFile_filter entries = filter (λ kv, 2 < validMovies kv.2) m.
Proof.
  intros Hperm. apply map_eq. intros id.
  assert (Hnd : NoDup entries.*1).
  { rewrite Hperm. apply NoDup_fst_map_to_list. }
  rewrite writeToFile_filter_lookup by done.
  assert (Hm : (list_to_map entries : gmap string Series) = m).
  { rewrite <- (list_to_map_to_list m). by apply list_to_map_proper. }
  rewrite Hm, map_lookup_filter.
  destruct (m !! id) as [s|]; simpl; [|done].
  destruct (Z.ltb_spec 2 (validMovies s)).
  - by rewrite option_guard_True.
  - rewrite option_guard_False; [done|]. simpl. lia.
Qed.

Section Store_facts.
Context {W : Type} `{Handler W}.

(** [writeToFile] writes one file, named by the day, that holds the day and
    the series with more than two resolved films. *)
Lemma writeToFile_writes_eligible (scrappedSeries : gmap string Series) (w : W) :
  (handle _ (RangeMap scrappedSeries) w).1 ≡ₚ map_to_list scrappedSeries →
  ∃ entries today r,
    events (writeToFile scrappedSeries w)
    = [Ev (RangeMap scrappedSeries) entries; Ev TimeNow today;
       Ev (OsWriteFile (today +:+ ".json")
             (mkScrapedData today
                (filter (λ kv, 2 < validMovies kv.2) scrappedSeries))) r].
Proof.
  intros Hperm. unfold writeToFile. run.
  rewrite (writeToFile_filter_map scrappedSeries _ Hperm).
  destruct (handle _ (RangeMap scrappedSeries) w) as [entries w1]; cbn.
  destruct (handle _ TimeNow w1) as [today w2]; cbn.
  destruct (handle _ (OsWriteFile _ _) w2) as [[[]|e] w3]; cbn; eauto.
Qed.
End Store_facts.

(** The merging loop of [UpdateFileStore], whatever the order of the visit:
    a scraped series that the file also has gets the file's films followed
    by its own new ones; the other scraped series are kept as they are. *)
Lemma UpdateFileStore_merge_lookup (fileCollections scrappedData : gmap string Series)
    (entries : list (string * Series)) (id : string) :
  entries ≡ₚ map_to_list scrappedData →
  UpdateFileStore_merge fileCollections scrappedData entries !! id
  = s ← scrappedData !! id;
    Some (match fileCollections !! id with
          | Some col => set_Movies s (dedupeFilms (Movies col) (Movies s))
          | None => s
          end).
Proof.
  intros Hperm. unfold UpdateFileStore_merge.
  assert (Hgen : ∀ (l : list (string * Series)) (acc : gmap string Series),
            NoDup l.*1 →
            foldl (λ scrappedData e,
                     match fileCollections !! e.1 with
                     | Some col =>
                         <[e.1 := set_Movies e.2 (dedupeFilms (Movies col) (Movies e.2))]>
                           scrappedData
                     | None => scrappedData
                     end) acc l !! id
            = match (list_to_map l : gmap string Series) !! id with
              | Some s =>
                  match fileCollections !! id with
                  | Some col => Some (set_Movies s (dedupeFilms (Movies col) (Movies s)))
                  | None => acc !! id
                  end
              | None => acc !! id
              end).
  { induction l as [|[k s] l IH]; intros acc Hnd; simpl; [done|].
    apply NoDup_cons in Hnd as [Hk Hnd]. rewrite IH by done.
    destruct (decide (k = id)) as [->|Hne].
    - rewrite lookup_insert_eq.
      rewrite (not_elem_of_list_to_map_1 _ id Hk).
      destruct (fileCollections !! id); [by rewrite lookup_insert_eq|done].
    - rewrite lookup_insert_ne by done.
      destruct (list_to_map l !! id) as [s'|];
        destruct (fileCollections !! id) as [col|];
        destruct (fileCollections !! k) as [col'|]; try done;
        by rewrite lookup_insert_ne. }
  assert (Hnd : NoDup entries.*1).
  { rewrite Hperm. apply NoDup_fst_map_to_list. }
  assert (Hm : (list_to_map entries : gmap string Series) = scrappedData).
  { rewrite <- (list_to_map_to_list scrappedData). by apply list_to_map_proper. }
  rewrite Hgen, Hm by done.
  destruct (scrappedData !! id) as [s|] eqn:Hs; simpl; [|done].
  by destruct (fileCollections !! id).
Qed.

(** A film that the file has resolved is still there, at its index, in the
    series that [UpdateFileStore] hands to [writeToFile]. *)
Lemma UpdateFileStore_merge_keeps_resolved
    (fileCollections scrappedData : gmap string Series)
    (entries : list (string * Series)) (id : string) (col s : Series)
    (i : nat) (f : Film) :
  entries ≡ₚ map_to_list scrappedData →
  fileCollections !! id = Some col →
  scrappedData !! id = Some s →
  Movies col !! i = Some f →
  ∃ s', UpdateFileStore_merge fileCollections scrappedData entries !! id = Some s'
        ∧ Movies s' !! i = Some f.
Proof.
  intros Hperm Hcol Hs Hf.
  rewrite (UpdateFileStore_merge_lookup _ _ _ _ Hperm), Hs, Hcol. simpl.
  eexists. split; [reflexivity|]. simpl.
  rewrite dedupeFilms_unfold. by apply lookup_app_l_Some.
Qed.

Section Tagging_facts.
Context {W : Type} `{Handler W}.

(** [CreateTag] is create-if-absent by label: it lists the tags, returns the
    id of the first tag with the label when there is one, and adds a tag
    only when there is none. *)
Lemma CreateTag_create_if_absent (name : string) (w : W) :
  let o := CreateTag name w in
  (∃ e, radarr_ops (events o) = [OpGetTags] ∧ value o = Err e)
  ∨ (∃ tags tag,
       Ev RadarrGetTags (Ok tags) ∈ events o
       ∧ find_tag name tags = Some tag
       ∧ radarr_ops (events o) = [OpGetTags] ∧ value o = Ok (tag_ID tag))
  ∨ (∃ tags,
       Ev RadarrGetTags (Ok tags) ∈ events o
       ∧ find_tag name tags = None
       ∧ radarr_ops (events o) = [OpGetTags; OpAddTag name]).
Proof.
  unfold CreateTag. cbv zeta. run.
  destruct (handle _ RadarrGetTags w) as [[tags|e] w1]; cbn.
  - destruct (find_tag name tags) as [tag|] eqn:Hfind; cbn.
    + right. left. exists tags, tag. repeat split; try done. left.
    + right. right. exists tags. run.
      destruct (handle _ (RadarrAddTag name) w1) as [[created|e] w2]; cbn;
        repeat split; try done; left.
  - left. eauto.
Qed.

(** [ProcessJSONToRadarr] does not skip a series with exactly two resolved
    films: its first call for the series lists the tags, for [CreateTag]. *)
Lemma process_series_two_resolved (config : RadarrConfig) (seriesID : string)
    (series : Series) (w : W) :
  validMovies series = 2 →
  head (radarr_ops (events (process_series config (seriesID, series) w)))
  = Some OpGetTags.
Proof.
  intros Htwo. unfold process_series. rewrite Htwo. cbn. run.
  rewrite radarr_ops_app.
  destruct (CreateTag_create_if_absent ("metrograph-" +:+ seriesID) w)
    as [(e & -> & _)|[(tags & tag & _ & _ & -> & _)|(tags & _ & _ & ->)]]; done.
Qed.
End Tagging_facts.

(** C1. A series with exactly two resolved films is left out of the
    snapshot by [writeToFile], but [ProcessJSONToRadarr], whose guard is
    [validMovies < 2], creates its tag and adds its two resolved films. *)
Theorem two_resolved_films_reach_radarr :
  validMovies series_two = 2
  ∧ writeToFile_filter [("s2", series_two)] = ∅
  ∧ (let o := ProcessJSONToRadarr "2025-01-14.json" radarr_config
                (fake_with_snapshot [("s2", series_two)]) in
     value o = Ok ()
     ∧ fk_tags (world o) = [mkTag 1 "metrograph-s2"]
     ∧ fk_movies (world o) = [mkMovie 2 "A" 101 [1]; mkMovie 3 "B" 102 [1]]).
Proof. repeat split; vm_compute; reflexivity. Qed.

(** A series with three resolved films passes both guards. *)
Lemma three_resolved_films_pass_both :
  validMovies series_three = 3
  ∧ writeToFile_filter [("s3", series_three)] !! "s3" = Some series_three
  ∧ fk_tags (world (ProcessJSONToRadarr "2025-01-14.json" radarr_config
                      (fake_with_snapshot [("s3", series_three)])))
    = [mkTag 1 "metrograph-s3"].
Proof. repeat split; vm_compute; reflexivity. Qed.

(** ** CatalogMatcher *)

Lemma cleanTitle_cons (t : string) : ∃ rest, cleanTitle t = t :: rest.
Proof.
  unfold cleanTitle. repeat case_bool_decide; simpl; eauto.
Qed.

Section Matcher_facts.
Context {W : Type} `{Handler W}.

(** One search: a pause, then one request; an error when the request
    failed, a movie only when the answer lists it first. *)
Lemma searchTMDBWithTitle_lookups (title : string) (year : Z) (apiKey : string)
    (w : W) :
  let o := searchTMDBWithTitle title year apiKey w in
  ∃ r, tmdb_lookups (events o) = [(search_query title year apiKey, r)]
     ∧ (lookup_failed r → ∃ e, value o = Err e)
     ∧ (∀ movie, value o = Ok (Some movie) →
          ∃ movies, r = Ok (mkTMDBResponse 200 (Ok (movie :: movies)))).
Proof.
  unfold searchTMDBWithTitle, bind, call; simpl.
  destruct (handle () (TimeSleep 250) w) as [[] w1]; simpl.
  fold (search_query title year apiKey).
  destruct (handle _ (HttpGet _) w1) as [[[status results]|e] w2]; simpl.
  - destruct (Z.eqb_spec status 200) as [->|Hne]; simpl.
    + destruct results as [[|movie movies]|e]; simpl;
        (eexists; split; [reflexivity|]); (split; [intros Hf; by simpl in Hf|]);
        intros m Hm; try discriminate.
      injection Hm as <-. eauto.
    + eexists; split; [reflexivity|]. split; [eauto|]. intros m Hm. discriminate.
  - eexists; split; [reflexivity|]. split; [eauto|]. intros m Hm. discriminate.
Qed.

Lemma SearchTMDB_try_cons (title : string) (year : Z) (apiKey v : string)
    (rest : list string) :
  SearchTMDB_try title year apiKey (v :: rest)
  = (do r ← searchTMDBWithTitle v year apiKey;
     match r with
     | Err e => ret (Err e)
     | Ok (Some movie) => ret (Ok movie)
     | Ok None => SearchTMDB_try title year apiKey rest
     end).
Proof. reflexivity. Qed.

(** A movie comes out of the loop over the variations only from an answer
    that lists it first. *)
Lemma SearchTMDB_try_found (title : string) (year : Z) (apiKey : string)
    (variations : list string) (w : W) (movie : TMDBMovie) :
  value (SearchTMDB_try title year apiKey variations w) = Ok movie →
  ∃ q movies,
    (q, Ok (mkTMDBResponse 200 (Ok (movie :: movies))))
    ∈ tmdb_lookups (events (SearchTMDB_try title year apiKey variations w)).
Proof.
  revert w. induction variations as [|v rest IH]; intros w; [discriminate|].
  destruct (searchTMDBWithTitle_lookups v year apiKey w) as (r & Hev & _ & Hfound).
  rewrite SearchTMDB_try_cons. run. rewrite tmdb_lookups_app, Hev.
  destruct (value (searchTMDBWithTitle v year apiKey w)) as [[m|]|e] eqn:Hv; cbn.
  - intros [= ->]. destruct (Hfound movie eq_refl) as [movies ->].
    eexists _, movies. left.
  - intros Hrest. destruct (IH _ Hrest) as (q & movies & Hin).
    exists q, movies. right. exact Hin.
  - discriminate.
Qed.

Lemma SearchTMDB_with_key (title : string) (year : Z) (apiKey : string) :
  apiKey ≠ "" →
  ∃ rest,
    SearchTMDB title year apiKey
    = (do r ← searchTMDBWithTitle title year apiKey;
       match r with
       | Err e => ret (Err e)
       | Ok (Some movie) => ret (Ok movie)
       | Ok None => SearchTMDB_try title year apiKey rest
       end).
Proof.
  intros Hkey. unfold SearchTMDB. rewrite bool_decide_eq_false_2 by done.
  destruct (cleanTitle_cons title) as [rest ->]. by exists rest.
Qed.

(** A request of the loop over the variations that fails, at whatever
    variation, is the last request of the search, and the search fails. *)
Lemma SearchTMDB_try_failed_last (title : string) (year : Z) (apiKey : string)
    (variations : list string) (w : W)
    (pre post : list (TMDBQuery * result TMDBResponse)) (q : TMDBQuery)
    (r : result TMDBResponse) :
  tmdb_lookups (events (SearchTMDB_try title year apiKey variations w))
  = pre ++ (q, r) :: post →
  lookup_failed r →
  post = [] ∧ ∃ e, value (SearchTMDB_try title year apiKey variations w) = Err e.
Proof.
  revert w pre. induction variations as [|v rest IH]; intros w pre.
  - cbn. intros Heq. by destruct pre.
  - destruct (searchTMDBWithTitle_lookups v year apiKey w) as (r0 & Hev & Herr & _).
    rewrite SearchTMDB_try_cons. run. rewrite tmdb_lookups_app, Hev.
    cbv zeta in Herr.
    destruct pre as [|p pre].
    + destruct (value (searchTMDBWithTitle v year apiKey w)) as [[m|]|e] eqn:Hv;
        cbn; intros [= <- <- Hpost] Hfail; destruct (Herr Hfail) as [e' He'];
        try discriminate.
      symmetry in Hpost. split; [done|eauto].
    + destruct (value (searchTMDBWithTitle v year apiKey w)) as [[m|]|e] eqn:Hv;
        cbn; intros [= _ Hrest] Hfail;
        try (by destruct pre).
      by apply (IH _ pre).
Qed.

(** C2 (amended). A film's search that fails, whatever the reason, is an
    outcome for that film alone: the film is left as it was and the pass
    goes on with the remaining films from the world the search left.  A
    request that fails (transport error or a status other than 200), for
    the title or for any later variant, is the last request of the film's
    search, which fails; and a search succeeds only with an answer that
    lists the movie first. *)
Theorem populateIMDBID_failure_is_per_film
    (film : Film) (rest : list Film) (key : string) (w : W) :
  key ≠ "" →
  let s := SearchTMDB (Title film) (Year film) key w in
  let o := populateIMDBID (film :: rest) key w in
  let o' := populateIMDBID rest key (world s) in
  (∀ e, value s = Err e →
     value o = film :: value o' ∧ events o = events s ++ events o')
  ∧ (∀ pre q r post,
       tmdb_lookups (events s) = pre ++ (q, r) :: post →
       lookup_failed r →
       post = [] ∧ ∃ e, value s = Err e)
  ∧ (∀ movie, value s = Ok movie →
       ∃ q movies,
         (q, Ok (mkTMDBResponse 200 (Ok (movie :: movies))))
         ∈ tmdb_lookups (events s)).
Proof.
  intros Hkey s o o'. split; [|split].
  - intros e He. subst o o'. cbn.
    unfold populate_film. rewrite bool_decide_eq_true_2 by done.
    run. fold s. rewrite He; cbn.
    split; [reflexivity|]. by rewrite !app_nil_r.
  - intros pre q r post Hlookups Hfail. subst s. unfold SearchTMDB in *.
    rewrite bool_decide_eq_false_2 in * by done.
    by apply (SearchTMDB_try_failed_last _ _ _ _ _ pre post q r).
  - intros movie Hm. subst s. unfold SearchTMDB in *.
    rewrite bool_decide_eq_false_2 in * by done.
    by apply SearchTMDB_try_found.
Qed.
End Matcher_facts.

Lemma populateIMDBID_failure_is_per_film_witness :
  "k" ≠ ""
  ∧ tmdb_lookups (events (SearchTMDB "[35mm] A" 0 "k" fake_tmdb))
    = [(search_query "[35mm] A" 0 "k", Ok (mkTMDBResponse 200 (Ok [])));
       (search_query "A" 0 "k", Err "dial tcp: i/o timeout")]
  ∧ value (populateIMDBID [resolved "[35mm] A" 0; resolved "B" 0] "k" fake_tmdb)
    = [resolved "[35mm] A" 0; resolved "B" 7]
  ∧ ((∀ e, value (SearchTMDB "[35mm] A" 0 "k" fake_tmdb) = Err e →
        value (populateIMDBID [resolved "[35mm] A" 0; resolved "B" 0] "k" fake_tmdb)
        = resolved "[35mm] A" 0
          :: value (populateIMDBID [resolved "B" 0] "k"
                      (world (SearchTMDB "[35mm] A" 0 "k" fake_tmdb)))
        ∧ events (populateIMDBID [resolved "[35mm] A" 0; resolved "B" 0] "k"
                    fake_tmdb)
          = events (SearchTMDB "[35mm] A" 0 "k" fake_tmdb)
            ++ events (populateIMDBID [resolved "B" 0] "k"
                         (world (SearchTMDB "[35mm] A" 0 "k" fake_tmdb))))
     ∧ (∀ pre q r post,
          tmdb_lookups (events (SearchTMDB "[35mm] A" 0 "k" fake_tmdb))
          = pre ++ (q, r) :: post →
          lookup_failed r →
          post = [] ∧ ∃ e, value (SearchTMDB "[35mm] A" 0 "k" fake_tmdb) = Err e)
     ∧ (∀ movie, value (SearchTMDB "[35mm] A" 0 "k" fake_tmdb) = Ok movie →
          ∃ q movies,
            (q, Ok (mkTMDBResponse 200 (Ok (movie :: movies))))
            ∈ tmdb_lookups (events (SearchTMDB "[35mm] A" 0 "k" fake_tmdb)))).
Proof.
  split; [done|].
  split; [vm_compute; reflexivity|].
  split; [vm_compute; reflexivity|].
  apply (populateIMDBID_failure_is_per_film (resolved "[35mm] A" 0)
           [resolved "B" 0] "k" fake_tmdb).
  done.
Defined.

(** C2, as stated, fails: the request for the first film fails in transport,
    and the pass still looks the second film up and resolves it. *)
Lemma transport_error_does_not_end_pass :
  value (populateIMDBID [resolved "A" 0; resolved "B" 0] "k" fake_tmdb)
  = [resolved "A" 0; resolved "B" 7]
  ∧ ¬ transport_error_ends_pass
        (events (populateIMDBID [resolved "A" 0; resolved "B" 0] "k" fake_tmdb)).
Proof.
  split; [vm_compute; reflexivity|].
  intros Hends.
  specialize (Hends [] (search_query "A" 0 "k") "dial tcp: i/o timeout"
                [(search_query "B" 0 "k",
                  Ok (mkTMDBResponse 200 (Ok [mkTMDBMovie 7 "B" "1999-01-01" ""])))]).
  discriminate Hends. vm_compute. reflexivity.
Qed.

(** ** ReconciliationEngine: the deleting pass *)

Lemma longer_with_prefix_spec (prefix s : string) :
  longer_with_prefix prefix s = true
  ↔ ∃ rest, rest ≠ "" ∧ s = prefix +:+ rest.
Proof.
  unfold longer_with_prefix. revert s.
  induction prefix as [|a p IH]; intros s.
  - destruct s as [|b s]; simpl.
    + split; [discriminate|]. intros (rest & Hne & Heq). exfalso. apply Hne. symmetry. exact Heq.
    + split; [|done]. intros _. by exists (String b s).
  - destruct s as [|b s]; simpl.
    + split; [discriminate|]. intros (rest & _ & Heq). discriminate.
    + specialize (IH s). simpl in IH.
      change (S (String.length p) <? S (String.length s))%nat
        with (String.length p <? String.length s)%nat.
      destruct (Ascii.eqb_spec b a) as [->|Hne].
      * rewrite IH. split.
        -- intros (rest & Hr & ->). by exists rest.
        -- intros (rest & Hr & [= ->]). by exists rest.
      * rewrite andb_false_r. split; [discriminate|].
        intros (rest & _ & [= -> _]). done.
Qed.

Lemma owned_subtype_spec (subtype : string) :
  owned_subtype subtype = true
  ↔ ∃ rest, rest ≠ "" ∧ subtype = "metrograph-" +:+ rest.
Proof.
  unfold owned_subtype. rewrite <- longer_with_prefix_spec.
  destruct subtype as [|a s]; [|done].
  split; [discriminate|]. done.
Qed.

Lemma toDelete_singleton (expectedNames : gset string) (c : Collection) :
  toDelete expectedNames [c]
  = if owned_name (c_Name c) && negb (bool_decide (c_Name c ∈ expectedNames))
    then [c] else [].
Proof.
  unfold toDelete.
  destruct (owned_name (c_Name c)) eqn:Hname; simpl.
  - case_bool_decide; simpl.
    + rewrite filter_cons_False; [done|]. intros [_ ?]. done.
    + by rewrite filter_cons_True.
  - rewrite filter_cons_False; [done|]. intros [? _]. congruence.
Qed.

Lemma toDelete_cons (expectedNames : gset string) (c : Collection)
    (existing : list Collection) :
  toDelete expectedNames (c :: existing)
  = toDelete expectedNames [c] ++ toDelete expectedNames existing.
Proof. unfold toDelete. by rewrite (filter_app _ [c] existing). Qed.

(** When every request asked for could be created, all of them count. *)
Lemma created_all (calls : list (string * result ())) :
  Forall (λ d, d.2 = Ok ()) calls → created calls = calls.*1.
Proof.
  unfold created. induction 1 as [|[url r] calls Hr _ IH]; [done|].
  cbn in *. subst r. by rewrite IH.
Qed.

Section Sync_facts.
Context {W : Type} `{Handler W}.

(** One [makeRequest] has the trace of [makes_request]; it returns the
    response exactly when the request was created and sent and was
    answered. *)
Lemma makeRequest_events (a : AgregarrConfig) (method endpoint : string)
    (body : option Collection) (w : W) :
  makes_request a method endpoint body (events (makeRequest a method endpoint body w)).
Proof.
  unfold makeRequest, makes_request. cbv zeta. run.
  destruct (handle _ (HttpNewRequest _ _) w) as [[[]|e] w1]; cbn.
  - right. run. destruct (handle _ (HttpDo _) w1) as [[resp|e] w2]; cbn; eauto.
  - left. eauto.
Qed.

Lemma DeleteCollection_events (a : AgregarrConfig) (collectionID : string) (w : W) :
  makes_request a "DELETE" ("collections/" +:+ collectionID) None
    (events (DeleteCollection a collectionID w)).
Proof.
  unfold DeleteCollection. cbv zeta. run.
  pose proof (makeRequest_events a "DELETE" ("collections/" +:+ collectionID) None w)
    as Hreq.
  destruct (value (makeRequest _ _ _ _ w)) as [resp|e]; cbn.
  - destruct (300 <=? rs_StatusCode resp); cbn; by rewrite app_nil_r.
  - by rewrite app_nil_r.
Qed.

Lemma GetTagIDByName_events (tagName : string) (w : W) :
  ∃ r, events (GetTagIDByName tagName w) = [Ev RadarrGetTags r]
       ∧ (∀ tagID, value (GetTagIDByName tagName w) = Ok tagID →
            ∃ tags tag, r = Ok tags ∧ find_tag tagName tags = Some tag
                        ∧ tag_ID tag = tagID)
       ∧ (∀ e, value (GetTagIDByName tagName w) = Err e → tag_missing tagName r).
Proof.
  unfold GetTagIDByName. run.
  destruct (handle _ RadarrGetTags w) as [[tags|e] w']; cbn.
  - eexists; split; [|split].
    + destruct (find_tag tagName tags); reflexivity.
    + intros tagID. destruct (find_tag tagName tags) as [tag|] eqn:Hfind; cbn;
        [|discriminate].
      intros [= <-]. eauto.
    + intros e. cbn. by destruct (find_tag tagName tags).
  - eexists; split; [reflexivity|]. split; [discriminate|done].
Qed.

Lemma DeleteTag_events (tagName : string) (w : W) :
  deletes_tag tagName (events (DeleteTag tagName w)).
Proof.
  unfold DeleteTag. run.
  destruct (GetTagIDByName_events tagName w) as (r & -> & Hok & Herr).
  destruct (value (GetTagIDByName tagName w)) as [tagID|e]; cbn.
  - destruct (Hok tagID eq_refl) as (tags & tag & -> & Hfind & <-).
    right. run.
    destruct (handle _ (RadarrDeleteTag (tag_ID tag)) _) as [[[]|e] w']; cbn; eauto.
  - left. eauto.
Qed.

(** What the loop does for one existing collection. *)
Lemma sync_collection_shape (a : AgregarrConfig) (expectedNames : gset string)
    (c : Collection) (w : W) :
  events (sync_collection a expectedNames c w)
  = if owned_name (c_Name c) && negb (bool_decide (c_Name c ∈ expectedNames))
    then events (DeleteCollection a (c_ID c) w)
         ++ (if owned_subtype (c_Subtype c)
             then events (DeleteTag (c_Subtype c)
                            (world (DeleteCollection a (c_ID c) w)))
             else [])
    else [].
Proof.
  unfold sync_collection.
  destruct (owned_name (c_Name c)); [|done].
  destruct (negb (bool_decide (c_Name c ∈ expectedNames))); [|done].
  cbn [andb]. run.
  destruct (owned_subtype (c_Subtype c)); [|done].
  run. by rewrite app_nil_r.
Qed.

(** The deleting loop, collection by collection: its trace is made of one
    deletion for each collection of [toDelete], in the order of the list. *)
Lemma sync_delete_trace (a : AgregarrConfig) (expectedNames : gset string)
    (existing : list Collection) (w : W) :
  ∃ groups,
    events (sync_delete a expectedNames existing w) = concat groups
    ∧ Forall2 (deletes_collection a) (toDelete expectedNames existing) groups.
Proof.
  unfold sync_delete. revert w.
  induction existing as [|c existing IH]; intros w.
  - exists []. split; [done|constructor].
  - rewrite for_range_cons. cbv zeta. run.
    destruct (IH (world (sync_collection a expectedNames c w)))
      as (groups & -> & Hgroups).
    rewrite sync_collection_shape, toDelete_cons, (toDelete_singleton expectedNames c).
    destruct (owned_name (c_Name c) && negb (bool_decide (c_Name c ∈ expectedNames))).
    2:{ exists groups. by split. }
    eexists (_ :: groups). split; [reflexivity|].
    constructor; [|done].
    eexists _, _. split; [reflexivity|]. split; [apply DeleteCollection_events|].
    destruct (owned_subtype (c_Subtype c)); [apply DeleteTag_events|done].
Qed.

(** What a trace made of such deletions asks for and sends. *)
Lemma deletes_collection_calls (a : AgregarrConfig) (c : Collection)
    (evs : list Event) :
  deletes_collection a c evs →
  forallb delete_only evs = true
  ∧ (delete_calls evs).*1 = [delete_url a c]
  ∧ delete_urls evs = created (delete_calls evs)
  ∧ (owned_subtype (c_Subtype c) = false → radarr_ops evs = []).
Proof.
  intros (request & tag & -> & Hrequest & Htag).
  assert (Htags : forallb delete_only tag = true ∧ delete_calls tag = []
                  ∧ delete_urls tag = []
                  ∧ (owned_subtype (c_Subtype c) = false → radarr_ops tag = [])).
  { destruct (owned_subtype (c_Subtype c)).
    - destruct Htag as [(listed & -> & _)|(tags & t & deleted & -> & _)];
        repeat split; done.
    - by subst tag. }
  destruct Htags as (Ht1 & Ht2 & Ht3 & Ht4).
  rewrite forallb_app, delete_calls_app, delete_urls_app, radarr_ops_app.
  rewrite Ht1, Ht2, Ht3, !app_nil_r.
  destruct Hrequest as [[e ->]|[r ->]]; repeat split; try done;
    intros Hsub; by rewrite (Ht4 Hsub).
Qed.

Lemma deletions_calls (a : AgregarrConfig) (cs : list Collection)
    (groups : list (list Event)) :
  Forall2 (deletes_collection a) cs groups →
  forallb delete_only (concat groups) = true
  ∧ (delete_calls (concat groups)).*1 = delete_url a <$> cs
  ∧ delete_urls (concat groups) = created (delete_calls (concat groups)).
Proof.
  induction 1 as [|c evs cs groups Hc _ (IH1 & IH2 & IH3)]; [done|].
  destruct (deletes_collection_calls a c evs Hc) as (H1 & H2 & H3 & _).
  cbn [concat].
  rewrite forallb_app, delete_calls_app, delete_urls_app, created_app, fmap_app.
  rewrite H1, H2, H3, IH1, IH2, IH3. done.
Qed.

(** C3 (amended). The deleting loop asks for the deletion of exactly the
    existing collections whose name is the prefix followed by at least one
    more byte and is not expected, in the order of the list; the [DELETE]
    requests it sends are those of them that [http.NewRequest] could
    create, so all of them when it could create every one.  A collection
    whose name lacks the prefix, or is the prefix alone, is never
    deleted. *)
Theorem sync_delete_deletes_owned_unexpected (a : AgregarrConfig)
    (expectedNames : gset string) (existing : list Collection) (w : W)
    (name : string) :
  (delete_calls (events (sync_delete a expectedNames existing w))).*1
  = delete_url a
    <$> filter (λ c, owned_name (c_Name c) = true ∧ c_Name c ∉ expectedNames)
          existing
  ∧ delete_urls (events (sync_delete a expectedNames existing w))
    = created (delete_calls (events (sync_delete a expectedNames existing w)))
  ∧ (Forall (λ d, d.2 = Ok ())
       (delete_calls (events (sync_delete a expectedNames existing w))) →
     delete_urls (events (sync_delete a expectedNames existing w))
     = delete_url a
       <$> filter (λ c, owned_name (c_Name c) = true ∧ c_Name c ∉ expectedNames)
             existing)
  ∧ (owned_name name = true ↔ ∃ rest, rest ≠ "" ∧ name = "Metrograph: " +:+ rest).
Proof.
  destruct (sync_delete_trace a expectedNames existing w) as (groups & -> & Hgroups).
  destruct (deletions_calls a _ groups Hgroups) as (_ & Hcalls & Hsent).
  split; [exact Hcalls|]. split; [exact Hsent|].
  split; [|apply longer_with_prefix_spec].
  intros Hall. by rewrite Hsent, (created_all _ Hall).
Qed.

Lemma GetCollections_events (a : AgregarrConfig) (w : W) :
  makes_request a "GET" "collections" None (events (GetCollections a w)).
Proof.
  unfold GetCollections. run.
  pose proof (makeRequest_events a "GET" "collections" None w) as Hreq.
  destruct (value (makeRequest a "GET" "collections" None w)) as [resp|e]; cbn;
    [|by rewrite app_nil_r].
  destruct (negb (rs_StatusCode resp =? 200)); cbn; [by rewrite app_nil_r|].
  destruct (rs_ReadErr resp); cbn; [by rewrite app_nil_r|].
  destruct (rs_Configs resp); cbn; by rewrite app_nil_r.
Qed.

(** A listing asks for no deletion and calls Radarr for nothing. *)
Lemma listing_calls (a : AgregarrConfig) (evs : list Event) :
  makes_request a "GET" "collections" None evs →
  forallb delete_only evs = true ∧ delete_calls evs = [] ∧ delete_urls evs = []
  ∧ radarr_ops evs = [] ∧ posted_collections evs = []
  ∧ (length (http_requests evs) ≤ 1)%nat.
Proof.
  intros [[e ->]|[r ->]]; repeat split; try done; unfold http_requests; cbn; lia.
Qed.

(** The trace of the whole pass: the snapshot is read, the collections are
    listed, the map of the snapshot is visited, and the deleting loop runs
    over the listed collections with the names expected from the
    snapshot. *)
Lemma SyncCollectionsFromJSON_trace (jsonFile : string) (radarrConfig : RadarrConfig)
    (agregarrConfig : AgregarrConfig) (w : W) :
  let o := SyncCollectionsFromJSON jsonFile radarrConfig agregarrConfig w in
  let read := handle _ (OsReadFile jsonFile) w in
  let listing := GetCollections agregarrConfig read.2 in
  match read.1 with
  | Ok (Ok scrapedData) =>
      match value listing with
      | Ok existing =>
          let visit := handle _ (RangeMap (Collections scrapedData)) (world listing) in
          value o = Ok ()
          ∧ events o
            = Ev (OsReadFile jsonFile) read.1
              :: events listing
              ++ Ev (RangeMap (Collections scrapedData)) visit.1
              :: events (sync_delete agregarrConfig (expectedNames_of visit.1)
                           existing visit.2)
      | Err _ =>
          (∃ e, value o = Err e)
          ∧ events o = Ev (OsReadFile jsonFile) read.1 :: events listing
      end
  | _ => (∃ e, value o = Err e) ∧ events o = [Ev (OsReadFile jsonFile) read.1]
  end.
Proof.
  cbv zeta. unfold SyncCollectionsFromJSON. run.
  destruct (handle _ (OsReadFile jsonFile) w) as [[[scrapedData|e]|e] w1]; cbn;
    [|eauto..].
  run.
  destruct (value (GetCollections agregarrConfig w1)) as [existing|e]; cbn.
  - run. split; [done|]. by rewrite app_nil_r.
  - rewrite app_nil_r. eauto.
Qed.

(** C10 (amended). The reconciliation sync pass only deletes.  Its trace
    is: the snapshot is read; when it is read and parsed, the collections
    are listed with one [GET]; when they are listed, the map of the
    snapshot is visited and then, for each listed collection whose name is
    [Metrograph: ] followed by at least one byte and is not expected, in
    the order of the listing and whatever the subtype of the collection,
    its deletion is asked for, followed by one tag deletion (the tags are
    listed, and the first tag with the label deleted when there is one)
    when its subtype is [metrograph-] followed by at least one more byte.
    The pass makes no other call: it creates and updates nothing. *)
Theorem SyncCollectionsFromJSON_only_deletes (jsonFile : string)
    (radarrConfig : RadarrConfig) (agregarrConfig : AgregarrConfig) (w : W)
    (subtype : string) :
  let o := SyncCollectionsFromJSON jsonFile radarrConfig agregarrConfig w in
  let read := handle _ (OsReadFile jsonFile) w in
  let listing := GetCollections agregarrConfig read.2 in
  forallb delete_only (events o) = true
  ∧ makes_request agregarrConfig "GET" "collections" None (events listing)
  ∧ match read.1 with
    | Ok (Ok scrapedData) =>
        match value listing with
        | Ok existing =>
            let results :=
              (handle _ (RangeMap (Collections scrapedData)) (world listing)).1 in
            ∃ groups,
              events o
              = Ev (OsReadFile jsonFile) read.1
                :: events listing
                ++ Ev (RangeMap (Collections scrapedData)) results
                :: concat groups
              ∧ Forall2 (deletes_collection agregarrConfig)
                  (toDelete (expectedNames_of results) existing) groups
        | Err _ => events o = Ev (OsReadFile jsonFile) read.1 :: events listing
        end
    | _ => events o = [Ev (OsReadFile jsonFile) read.1]
    end
  ∧ (owned_subtype subtype = true
     ↔ ∃ rest, rest ≠ "" ∧ subtype = "metrograph-" +:+ rest).
Proof.
  cbv zeta.
  pose proof (SyncCollectionsFromJSON_trace jsonFile radarrConfig agregarrConfig w)
    as Htrace. cbv zeta in Htrace.
  pose proof (GetCollections_events agregarrConfig
                (handle _ (OsReadFile jsonFile) w).2) as Hlisting.
  destruct (listing_calls _ _ Hlisting) as (Hl1 & _).
  split; [|split; [exact Hlisting|split; [|apply owned_subtype_spec]]].
  - destruct ((handle _ (OsReadFile jsonFile) w).1) as [[scrapedData|e]|e];
      try (destruct Htrace as [_ ->]; done).
    destruct (value (GetCollections agregarrConfig _)) as [existing|e].
    + destruct Htrace as [_ ->].
      match goal with
      | |- context [sync_delete ?a ?names ?l ?w0] =>
          destruct (sync_delete_trace a names l w0) as (groups & -> & Hgroups)
      end.
      destruct (deletions_calls _ _ _ Hgroups) as (Hd & _).
      match goal with
      | |- forallb _ (?x :: ?l1 ++ ?y :: ?l2) = true =>
          change (forallb delete_only ([x] ++ l1 ++ [y] ++ l2) = true)
      end.
      by rewrite !forallb_app, Hl1, Hd.
    + destruct Htrace as [_ ->].
      match goal with
      | |- forallb _ (?x :: ?l1) = true =>
          change (forallb delete_only ([x] ++ l1) = true)
      end.
      by rewrite forallb_app, Hl1.
  - destruct ((handle _ (OsReadFile jsonFile) w).1) as [[scrapedData|e]|e];
      try (by destruct Htrace as [_ ->]).
    destruct (value (GetCollections agregarrConfig _)) as [existing|e];
      [|by destruct Htrace as [_ ->]].
    destruct Htrace as [_ ->].
    match goal with
    | |- context [sync_delete ?a ?names ?l ?w0] =>
        destruct (sync_delete_trace a names l w0) as (groups & -> & Hgroups)
    end.
    by exists groups.
Qed.
End Sync_facts.

(** C3, as stated, fails: a collection named by the prefix alone starts with
    the prefix and is not expected, and the pass leaves it in place. *)
Lemma prefix_only_collection_is_kept :
  toDelete_by_prefix (expectedNames_of []) (fk_collections fake_prefix_only)
  = fk_collections fake_prefix_only
  ∧ fk_collections fake_prefix_only ≠ []
  ∧ value (SyncCollectionsFromJSON "2025-01-14.json" radarr_config agregarr_config
             fake_prefix_only) = Ok ()
  ∧ delete_urls (events (SyncCollectionsFromJSON "2025-01-14.json" radarr_config
                           agregarr_config fake_prefix_only)) = []
  ∧ fk_collections (world (SyncCollectionsFromJSON "2025-01-14.json" radarr_config
                             agregarr_config fake_prefix_only))
    = fk_collections fake_prefix_only.
Proof. repeat split; try (vm_compute; reflexivity). discriminate. Qed.

(** The reconciliation example of the specification: only [Metrograph: Y]
    and its tag are deleted. *)
Example sync_x_y_unrelated :
  delete_urls (events (SyncCollectionsFromJSON "2025-01-14.json" radarr_config
                         agregarr_config fake_x_y_unrelated))
  = ["http://agregarr/api/v1/collections/c2"]
  ∧ c_Name <$> fk_collections
                 (world (SyncCollectionsFromJSON "2025-01-14.json" radarr_config
                           agregarr_config fake_x_y_unrelated))
    = ["Metrograph: X"; "Unrelated"]
  ∧ fk_tags (world (SyncCollectionsFromJSON "2025-01-14.json" radarr_config
                      agregarr_config fake_x_y_unrelated))
    = [mkTag 7 "metrograph-sx"].
Proof. repeat split; vm_compute; reflexivity. Qed.

(** C10, as stated, fails: a collection that the snapshot does not expect
    and whose name has the prefix is deleted although its subtype is not
    [metrograph-...]; no tag is deleted for it. *)
Lemma foreign_subtype_collection_is_deleted :
  c_Subtype <$> fk_collections fake_foreign_subtype = ["trending"]
  ∧ delete_urls (events (SyncCollectionsFromJSON "2025-01-14.json" radarr_config
                           agregarr_config fake_foreign_subtype))
    = ["http://agregarr/api/v1/collections/c1"]
  ∧ fk_collections (world (SyncCollectionsFromJSON "2025-01-14.json" radarr_config
                             agregarr_config fake_foreign_subtype)) = []
  ∧ fk_tags (world (SyncCollectionsFromJSON "2025-01-14.json" radarr_config
                      agregarr_config fake_foreign_subtype))
    = [mkTag 7 "trending"]
  ∧ ¬ deletes_owned_subtypes_only agregarr_config
        (fk_collections fake_foreign_subtype)
        (events (SyncCollectionsFromJSON "2025-01-14.json" radarr_config
                   agregarr_config fake_foreign_subtype)).
Proof.
  split; [vm_compute; reflexivity|].
  assert (Hurls :
    delete_urls (events (SyncCollectionsFromJSON "2025-01-14.json" radarr_config
                           agregarr_config fake_foreign_subtype))
    = ["http://agregarr/api/v1/collections/c1"]) by (vm_compute; reflexivity).
  split; [exact Hurls|].
  split; [vm_compute; reflexivity|]. split; [vm_compute; reflexivity|].
  intros Hall. specialize (Hall collection_foreign_subtype).
  rewrite Hurls in Hall.
  assert (Hprefix : String.prefix "metrograph-" (c_Subtype collection_foreign_subtype)
                    = true).
  { apply Hall; [vm_compute; left|vm_compute; left]. }
  vm_compute in Hprefix. discriminate Hprefix.
Qed.

(** With a host that [http.NewRequest] rejects, no request is sent: the
    sync pass fails at the listing, and [TestConnection] returns no error
    all the same. *)
Example bad_host_sends_nothing :
  value (SyncCollectionsFromJSON "2025-01-14.json" radarr_config agregarr_bad_host
           (fake_with_snapshot [("sx", series_x)]))
  = Err ("failed to get existing collections: failed to create request: "
         +:+ "invalid character in host name")
  ∧ http_requests (events (SyncCollectionsFromJSON "2025-01-14.json" radarr_config
                             agregarr_bad_host
                             (fake_with_snapshot [("sx", series_x)]))) = []
  ∧ value (TestConnection agregarr_bad_host fake_empty) = Ok ()
  ∧ http_requests (events (TestConnection agregarr_bad_host fake_empty)) = []
  ∧ length (new_requests (events (TestConnection agregarr_bad_host fake_empty)))
    = 5%nat.
Proof. repeat split; vm_compute; reflexivity. Qed.
(** ** ReconciliationEngine: the creating pass *)

Section Create_facts.
Context {W : Type} `{Handler W}.

Lemma CreateCollection_events (a : AgregarrConfig) (collection : Collection)
    (w : W) :
  makes_request a "POST" "collections/create" (Some collection)
    (events (CreateCollection a collection w)).
Proof.
  unfold CreateCollection. cbv zeta. run.
  pose proof (makeRequest_events a "POST" "collections/create" (Some collection) w)
    as Hreq.
  destruct (value (makeRequest _ _ _ _ w)) as [resp|e]; cbn;
    [|by rewrite app_nil_r].
  destruct (300 <=? rs_StatusCode resp); cbn; [by rewrite app_nil_r|].
  destruct (rs_Configs resp) as [[|created l]|e']; cbn; by rewrite app_nil_r.
Qed.

(** What the loop does for one entry of the snapshot: the tag is looked up
    by its label; when it is there, the collection of the series is posted
    and the loop goes on, whatever becomes of the request; when it is not,
    or the tags cannot be listed, the pass returns the error. *)
Lemma create_collection_step (radarrConfig : RadarrConfig)
    (agregarrConfig : AgregarrConfig) (e : string * Series) (w : W) :
  let o := create_collection radarrConfig agregarrConfig e w in
  (value o = None ∧ creates_collection radarrConfig agregarrConfig e (events o))
  ∨ (∃ err listed,
       value o = Some err ∧ events o = [Ev RadarrGetTags listed]
       ∧ tag_missing ("metrograph-" +:+ e.1) listed).
Proof.
  destruct e as [seriesID series].
  unfold create_collection. cbv zeta. run.
  destruct (GetTagIDByName_events ("metrograph-" +:+ seriesID) w)
    as (r & Hev & Hfound & Hmissing).
  rewrite Hev.
  destruct (value (GetTagIDByName ("metrograph-" +:+ seriesID) w))
    as [tagID|err] eqn:Hv; cbn.
  - destruct (Hfound tagID eq_refl) as (tags & tag & -> & Hfind & <-).
    left. run. split; [done|].
    exists tags, tag. eexists. split; [reflexivity|]. split; [exact Hfind|].
    rewrite app_nil_r. apply CreateCollection_events.
  - right. exists err, r. split; [done|]. split; [done|]. by apply (Hmissing err).
Qed.

Lemma creates_collection_calls (radarrConfig : RadarrConfig)
    (agregarrConfig : AgregarrConfig) (e : string * Series) (evs : list Event) :
  creates_collection radarrConfig agregarrConfig e evs →
  forallb create_call evs = true.
Proof.
  intros (tags & tag & post & -> & _ & [[err ->]|[r ->]]); done.
Qed.

(** The loop over the entries of the snapshot: it posts the collection of
    every entry in the order of the visit, until the first entry whose tag
    is not listed; there it stops with an error. *)
Lemma create_loop_trace (radarrConfig : RadarrConfig)
    (agregarrConfig : AgregarrConfig) (results : list (string * Series)) (w : W) :
  let o := for_each (create_collection radarrConfig agregarrConfig) results w in
  ∃ visited groups stop,
    events o = concat groups ++ stop
    ∧ Forall2 (creates_collection radarrConfig agregarrConfig) visited groups
    ∧ forallb create_call (concat groups ++ stop) = true
    ∧ ((value o = None ∧ visited = results ∧ stop = [])
       ∨ (∃ e rest listed err,
            results = visited ++ e :: rest
            ∧ stop = [Ev RadarrGetTags listed]
            ∧ tag_missing ("metrograph-" +:+ e.1) listed
            ∧ value o = Some err)).
Proof.
  cbv zeta. revert w. induction results as [|e results IH]; intros w.
  - exists [], [], []. split; [done|]. split; [constructor|]. split; [done|].
    by left.
  - rewrite for_each_cons. run.
    destruct (create_collection_step radarrConfig agregarrConfig e w)
      as [[Hv Hcreates]|(err & listed & Hv & Hev & Hmissing)];
      cbv zeta in *; rewrite Hv; cbn.
    + destruct (IH (world (create_collection radarrConfig agregarrConfig e w)))
        as (visited & groups & stop & -> & Hgroups & Hcalls & Hend).
      exists (e :: visited), (events (create_collection radarrConfig agregarrConfig e w)
                              :: groups), stop.
      split; [cbn [concat]; by rewrite <- app_assoc|].
      split; [by constructor|].
      split.
      { cbn [concat]. rewrite <- app_assoc, forallb_app, Hcalls.
        by rewrite (creates_collection_calls _ _ _ _ Hcreates). }
      destruct Hend as [(Hnone & -> & ->)|(e' & rest & l & err & -> & -> & Hm & Herr)].
      * by left.
      * right. exists e', rest, l, err. by repeat split.
    + rewrite app_nil_r, Hev.
      exists [], [], [Ev RadarrGetTags listed].
      split; [done|]. split; [constructor|]. split; [done|].
      right. exists e, results, listed, err. by repeat split.
Qed.

(** C4 (amended). The creating pass reads the snapshot and visits its map,
    with no test of eligibility and no look at the collections that exist
    downstream.  For each entry, in the order of the visit, it lists the
    tags of Radarr: when a tag [metrograph-<seriesID>] is listed, it posts
    a collection named [Metrograph: <series name>] with that subtype and
    the id of the first such tag, and goes on to the next entry whatever
    becomes of the request; at the first entry whose tag is not listed, or
    when the tags cannot be listed, the pass stops with an error.  It
    returns no error exactly when every entry was visited.  It makes no
    other call: it never adds a tag. *)
Theorem create_pass_posts_every_series (jsonFile : string)
    (radarrConfig : RadarrConfig) (agregarrConfig : AgregarrConfig) (w : W)
    (seriesID : string) (series : Series) (tagID : Z) :
  let o := CreateCollectionsFromJSON jsonFile radarrConfig agregarrConfig w in
  let read := handle _ (OsReadFile jsonFile) w in
  match read.1 with
  | Ok (Ok scrapedData) =>
      let results := (handle _ (RangeMap (Collections scrapedData)) read.2).1 in
      ∃ visited groups stop,
        events o
        = Ev (OsReadFile jsonFile) read.1
          :: Ev (RangeMap (Collections scrapedData)) results
          :: concat groups ++ stop
        ∧ Forall2 (creates_collection radarrConfig agregarrConfig) visited groups
        ∧ forallb create_call (concat groups ++ stop) = true
        ∧ ((value o = Ok () ∧ visited = results ∧ stop = [])
           ∨ (∃ e rest listed err,
                results = visited ++ e :: rest
                ∧ stop = [Ev RadarrGetTags listed]
                ∧ tag_missing ("metrograph-" +:+ e.1) listed
                ∧ value o = Err err))
  | _ => (∃ e, value o = Err e) ∧ events o = [Ev (OsReadFile jsonFile) read.1]
  end
  ∧ c_Name (new_collection radarrConfig seriesID series tagID)
    = "Metrograph: " +:+ Name series
  ∧ c_Subtype (new_collection radarrConfig seriesID series tagID)
    = "metrograph-" +:+ seriesID
  ∧ c_RadarrTagID (new_collection radarrConfig seriesID series tagID) = tagID.
Proof.
  cbv zeta. split; [|done].
  unfold CreateCollectionsFromJSON. run.
  destruct (handle _ (OsReadFile jsonFile) w) as [[[scrapedData|e]|e] w1]; cbn;
    [|eauto..].
  run.
  destruct (handle _ (RangeMap (Collections scrapedData)) w1) as [results w2]; cbn.
  destruct (create_loop_trace radarrConfig agregarrConfig results w2)
    as (visited & groups & stop & Hev & Hgroups & Hcalls & Hend).
  cbv zeta in *. rewrite Hev.
  exists visited, groups, stop.
  destruct Hend as [(Hnone & -> & ->)|(e' & rest & l & err & -> & -> & Hm & Herr)].
  - rewrite Hnone. cbn. rewrite !app_nil_r.
    split; [done|]. split; [done|]. split; [by rewrite app_nil_r in Hcalls|].
    by left.
  - rewrite Herr. cbn. rewrite !app_nil_r.
    split; [done|]. split; [done|]. split; [done|].
    right. exists e', rest, l, err. by repeat split.
Qed.
End Create_facts.

(** C4, as stated, fails twice.  With the collection of the series already
    there, the pass posts it a second time; and with the tag missing, the
    pass returns an error and adds no tag. *)
Lemma create_pass_repeats_and_needs_tag :
  (¬ creates_only_missing_eligible (fk_collections fake_already_created)
       [("s3", series_three)]
       (posted_collections
          (events (CreateCollectionsFromJSON "2025-01-14.json" radarr_config
                     agregarr_config fake_already_created))))
  ∧ c_Name <$> fk_collections
                 (world (CreateCollectionsFromJSON "2025-01-14.json" radarr_config
                           agregarr_config fake_already_created))
    = ["Metrograph: Three"; "Metrograph: Three"]
  ∧ value (CreateCollectionsFromJSON "2025-01-14.json" radarr_config
             agregarr_config (fake_with_snapshot [("s3", series_three)]))
    = Err "tag 'metrograph-s3' not found in Radarr"
  ∧ fk_tags (world (CreateCollectionsFromJSON "2025-01-14.json" radarr_config
                      agregarr_config (fake_with_snapshot [("s3", series_three)])))
    = [].
Proof.
  split; [|repeat split; vm_compute; reflexivity].
  intros Hall.
  assert (Hposted :
    posted_collections
      (events (CreateCollectionsFromJSON "2025-01-14.json" radarr_config
                 agregarr_config fake_already_created))
    = [new_collection radarr_config "s3" series_three 9])
    by (vm_compute; reflexivity).
  rewrite Hposted in Hall. apply Forall_cons in Hall as [[Hnew _] _].
  apply Hnew. vm_compute. left.
Qed.

(** ** Radarr client: adding a movie that is already there *)

Lemma existingTagMap_lookup (existingTags : list Z) (tagID : Z) :
  default false
    (foldl (λ (m : gmap Z bool) t, <[t := true]> m) ∅ existingTags !! tagID)
  = bool_decide (tagID ∈ existingTags).
Proof.
  assert (Hgen : ∀ (l : list Z) (m : gmap Z bool),
            default false (foldl (λ (m : gmap Z bool) t, <[t := true]> m) m l !! tagID)
            = bool_decide (tagID ∈ l) || default false (m !! tagID)).
  { induction l as [|t l IH]; intros m; cbn [foldl].
    - by rewrite bool_decide_eq_false_2 by apply not_elem_of_nil.
    - rewrite IH. destruct (decide (t = tagID)) as [->|Hne].
      + rewrite lookup_insert_eq. simpl.
        rewrite (bool_decide_eq_true_2 (tagID ∈ tagID :: l)) by left.
        by rewrite orb_true_r.
      + rewrite lookup_insert_ne by done.
        f_equal. apply bool_decide_ext. rewrite elem_of_cons. naive_solver. }
  rewrite Hgen, lookup_empty. simpl. by rewrite orb_false_r.
Qed.

(** The tag merge of [AddMovie]: the tags of the movie, then the requested
    ids that are not among them, in the order of the request. *)
Lemma merge_tags_spec (existingTags tagIDs : list Z) :
  merge_tags existingTags tagIDs
  = (existingTags ++ filter (λ t, t ∉ existingTags) tagIDs,
     Z.of_nat (length (filter (λ t, t ∉ existingTags) tagIDs))).
Proof.
  unfold merge_tags.
  assert (Hgen : ∀ (l : list Z) (acc : list Z * Z),
            foldl (λ acc tagID,
                     if negb (default false
                                (foldl (λ (m : gmap Z bool) t, <[t := true]> m) ∅
                                   existingTags !! tagID))
                     then (acc.1 ++ [tagID], acc.2 + 1) else acc) acc l
            = (acc.1 ++ filter (λ t, t ∉ existingTags) l,
               acc.2 + Z.of_nat (length (filter (λ t, t ∉ existingTags) l)))).
  { induction l as [|t l IH]; intros [tags n]; simpl.
    - rewrite app_nil_r. f_equal. lia.
    - rewrite IH, existingTagMap_lookup. case_bool_decide as Hin; simpl.
      + rewrite filter_cons_False by (intros Hn; by apply Hn). done.
      + rewrite filter_cons_True by done. rewrite <- app_assoc. simpl.
        f_equal. lia. }
  rewrite Hgen. simpl. f_equal.
Qed.

Section AddMovie_facts.
Context {W : Type} `{Handler W}.

(** C9 (amended). When the add-movie call fails with a message of the
    "already exists" class, [AddMovie] looks the movie up by its TMDB id.
    When the lookup fails or finds no movie, it returns an error and makes
    no further call.  When the lookup finds the movie and every requested
    tag id is among its tags, it returns no error and makes no further
    call.  Otherwise it fetches the movie by id: when the fetch fails it
    returns an error and updates nothing; when it succeeds it sends one
    update whose tags are the tags of the looked-up movie followed by the
    requested ids that are not among them, in request order, and returns
    no error exactly when the update succeeds. *)
Theorem AddMovie_already_exists_merges_tags
    (config : RadarrConfig) (tmdbID : Z) (title : string) (year : Z)
    (tagIDs : list Z) (w : W) (errMsg : string) :
  let input :=
    mkAddMovieInput title year tmdbID (rc_QualityProfileID config)
      (rc_RootFolderPath config) (rc_Monitored config) tagIDs
      (rc_SearchForMovie config) in
  let o := AddMovie config tmdbID title year tagIDs w in
  let w1 := (handle _ (RadarrAddMovie input) w).2 in
  let w2 := (handle _ (RadarrGetMovie tmdbID) w1).2 in
  (handle _ (RadarrAddMovie input) w).1 = Err errMsg →
  containsAny errMsg ["already been added"; "already exists"] = true →
  match (handle _ (RadarrGetMovie tmdbID) w1).1 with
  | Ok (existingMovie :: _) =>
      let missing := filter (λ t, t ∉ mv_Tags existingMovie) tagIDs in
      let fetch := handle _ (RadarrGetMovieByID (mv_ID existingMovie)) w2 in
      match missing with
      | [] =>
          value o = Ok () ∧ world o = w2
          ∧ radarr_ops (events o) = [OpAddMovie input; OpGetMovie tmdbID]
      | _ :: _ =>
          match fetch.1 with
          | Ok movie =>
              let update :=
                RadarrUpdateMovie (mv_ID existingMovie)
                  (set_Tags movie (mv_Tags existingMovie ++ missing)) false in
              radarr_ops (events o)
              = [OpAddMovie input; OpGetMovie tmdbID;
                 OpGetMovieByID (mv_ID existingMovie);
                 OpUpdateMovie (mv_ID existingMovie)
                   (set_Tags movie (mv_Tags existingMovie ++ missing)) false]
              ∧ match (handle _ update fetch.2).1 with
                | Ok _ => value o = Ok ()
                | Err _ => ∃ e, value o = Err e
                end
          | Err _ =>
              (∃ e, value o = Err e)
              ∧ radarr_ops (events o)
                = [OpAddMovie input; OpGetMovie tmdbID;
                   OpGetMovieByID (mv_ID existingMovie)]
          end
      end
  | _ =>
      (∃ e, value o = Err e) ∧ world o = w2
      ∧ radarr_ops (events o) = [OpAddMovie input; OpGetMovie tmdbID]
  end.
Proof.
  intros input o w1 w2 Hadd Hmsg.
  subst o. unfold AddMovie. cbv zeta. fold input. run.
  rewrite Hadd. cbn. rewrite Hmsg. fold w1.
  unfold GetMovieByTMDBID. run. subst w2.
  destruct (handle _ (RadarrGetMovie tmdbID) w1)
    as [[[|existingMovie others]|e] w2]; cbn; [eauto|..|eauto].
  rewrite merge_tags_spec.
  destruct (filter (λ t, t ∉ mv_Tags existingMovie) tagIDs) as [|t missing]
    eqn:Hmissing; cbn.
  { by rewrite app_nil_r. }
  assert (Hlen : (0 <? Z.of_nat (S (length missing))) = true)
    by (apply Z.ltb_lt; lia).
  cbn [length] in *. rewrite Hlen. unfold UpdateMovieTags. run.
  destruct (handle _ (RadarrGetMovieByID (mv_ID existingMovie)) w2)
    as [[movie|e] w3]; cbn; [|eauto].
  run.
  destruct (handle _ (RadarrUpdateMovie _ _ _) w3) as [[updated|e] w4]; cbn;
    eauto.
Qed.
End AddMovie_facts.

Lemma AddMovie_already_exists_merges_tags_witness :
  (handle _ (RadarrAddMovie (mkAddMovieInput "Carol" 2015 258480 4 "/movies" true
                               [3; 4] false)) fake_has_movie).1
  = Err "This movie has already been added"
  ∧ containsAny "This movie has already been added"
      ["already been added"; "already exists"] = true
  ∧ (radarr_ops (events (AddMovie radarr_config 258480 "Carol" 2015 [3; 4]
                           fake_has_movie))
     = [OpAddMovie (mkAddMovieInput "Carol" 2015 258480 4 "/movies" true [3; 4] false);
        OpGetMovie 258480; OpGetMovieByID 1;
        OpUpdateMovie 1 (mkMovie 1 "Carol" 258480 [3; 4]) false]
     ∧ value (AddMovie radarr_config 258480 "Carol" 2015 [3; 4] fake_has_movie)
       = Ok ())
  ∧ fk_movies (world (AddMovie radarr_config 258480 "Carol" 2015 [3; 4]
                        fake_has_movie))
    = [mkMovie 1 "Carol" 258480 [3; 4]].
Proof.
  pose proof (AddMovie_already_exists_merges_tags radarr_config 258480 "Carol"
                2015 [3; 4] fake_has_movie "This movie has already been added")
    as Hthm.
  cbv zeta in Hthm.
  specialize (Hthm ltac:(vm_compute; reflexivity) ltac:(vm_compute; reflexivity)).
  split; [vm_compute; reflexivity|].
  split; [vm_compute; reflexivity|].
  split; [|vm_compute; reflexivity].
  vm_compute. vm_compute in Hthm. exact Hthm.
Defined.

(** C9, as stated, fails: the add-movie call answers "already been added",
    the lookup that follows cannot reach the server, and [AddMovie] returns
    that error. *)
Lemma AddMovie_already_exists_can_fail :
  (handle _ (RadarrAddMovie (mkAddMovieInput "Carol" 2015 258480 4 "/movies" true
                               [4] false)) fake_going_down).1
  = Err "This movie has already been added"
  ∧ value (AddMovie radarr_config 258480 "Carol" 2015 [4] fake_going_down)
    = Err "failed to get existing movie: failed to get movies: connection refused"
  ∧ fk_movies (world (AddMovie radarr_config 258480 "Carol" 2015 [4] fake_going_down))
    = [mkMovie 1 "Carol" 258480 [3]].
Proof. repeat split; vm_compute; reflexivity. Qed.

(** A request that repeats a tag id has it appended once per occurrence. *)
Example AddMovie_repeated_request :
  fk_movies (world (AddMovie radarr_config 258480 "Carol" 2015 [4; 4] fake_has_movie))
  = [mkMovie 1 "Carol" 258480 [3; 4; 4]].
Proof. vm_compute. reflexivity. Qed.

(** * Further properties *)

(** ** CatalogMerger, further *)

Lemma filter_none {A : Type} (P : A → Prop) `{∀ x, Decision (P x)} (l : list A) :
  (∀ x, x ∈ l → ¬ P x) → filter P l = [].
Proof.
  induction l as [|x l IH]; intros Hl; [done|].
  rewrite filter_cons_False by (apply Hl; left).
  apply IH. intros y Hy. apply Hl. by right.
Qed.

Lemma titles_dedupeFilms (A B : list Film) :
  titles (dedupeFilms A B) = titles A ++ titles (fresh_films A B).
Proof. rewrite dedupeFilms_unfold. unfold titles. by rewrite fmap_app. Qed.

Lemma title_of_fresh (A B : list Film) (t : string) :
  t ∈ titles (fresh_films A B) ↔ t ∈ titles B ∧ t ∉ titles A.
Proof.
  unfold titles at 1, fresh_films. rewrite list_elem_of_fmap. split.
  - intros (f & -> & Hf). apply list_elem_of_filter in Hf as [Hnot Hin].
    split; [|done]. by apply list_elem_of_fmap_2.
  - intros [Hin Hnot]. apply list_elem_of_fmap in Hin as (f & -> & Hf).
    exists f. split; [done|]. by apply list_elem_of_filter.
Qed.

(** X1. Merging the same new films a second time changes nothing: every
    title of [B] is in the merged sequence already. *)
Theorem dedupeFilms_again_is_noop (A B : list Film) :
  dedupeFilms (dedupeFilms A B) B = dedupeFilms A B.
Proof.
  rewrite (dedupeFilms_unfold (dedupeFilms A B) B).
  rewrite <- (app_nil_r (dedupeFilms A B)) at 3. f_equal.
  unfold fresh_films. apply filter_none. intros f Hf Hnot. apply Hnot.
  rewrite titles_dedupeFilms, elem_of_app.
  destruct (decide (Title f ∈ titles A)) as [Hin|Hnin]; [by left|right].
  apply title_of_fresh. split; [|done]. by apply list_elem_of_fmap_2.
Qed.

(** X2. A merge keeps titles unique: when no title repeats within the
    stored films and none repeats within the new films, none repeats in the
    merged sequence. *)
Theorem dedupeFilms_titles_NoDup (A B : list Film) :
  NoDup (titles A) → NoDup (titles B) → NoDup (titles (dedupeFilms A B)).
Proof.
  intros HA HB. rewrite titles_dedupeFilms. apply NoDup_app. split; [done|]. split.
  - intros t Hin Hfresh. apply title_of_fresh in Hfresh as [_ Hnot]. done.
  - eapply sublist_NoDup; [exact HB|].
    unfold titles, fresh_films. apply fmap_sublist, sublist_filter.
Qed.

Lemma dedupeFilms_titles_NoDup_witness :
  NoDup (titles [film_b; film_a]) ∧ NoDup (titles [film_a_rescraped; film_c])
  ∧ NoDup (titles (dedupeFilms [film_b; film_a] [film_a_rescraped; film_c])).
Proof.
  assert (HA : NoDup (titles [film_b; film_a])).
  { apply (bool_decide_unpack _). vm_compute. exact I. }
  assert (HB : NoDup (titles [film_a_rescraped; film_c])).
  { apply (bool_decide_unpack _). vm_compute. exact I. }
  split; [exact HA|]. split; [exact HB|].
  exact (dedupeFilms_titles_NoDup [film_b; film_a] [film_a_rescraped; film_c] HA HB).
Defined.

(** X3. The titles of a merge are the titles of the stored films and of the
    new films, and no other; merging nothing, or merging into nothing,
    gives the other sequence back as it is, repeated titles included. *)
Theorem dedupeFilms_titles (A B : list Film) (t : string) :
  (t ∈ titles (dedupeFilms A B) ↔ t ∈ titles A ∨ t ∈ titles B)
  ∧ dedupeFilms A [] = A
  ∧ dedupeFilms [] B = B.
Proof.
  split; [|split].
  - rewrite titles_dedupeFilms, elem_of_app, title_of_fresh.
    destruct (decide (t ∈ titles A)); naive_solver.
  - rewrite dedupeFilms_unfold. unfold fresh_films. by rewrite filter_nil, app_nil_r.
  - rewrite dedupeFilms_unfold. simpl. unfold fresh_films.
    induction B as [|f B IH]; [done|].
    rewrite filter_cons_True by (unfold titles; simpl; apply not_elem_of_nil).
    by rewrite IH.
Qed.

(** ** TitleNormalizer, further *)

Lemma strip_prefix_app (p s r : string) :
  strip_prefix p s = Some r → s = p +:+ r.
Proof.
  revert s. induction p as [|a p IH]; intros s; simpl.
  - by intros [= ->].
  - destruct s as [|b s]; [discriminate|].
    destruct (Ascii.eqb_spec a b) as [->|?]; [|done].
    intros Hs. by rewrite (IH _ Hs).
Qed.

Lemma strip_any_prefix_app (ps : list string) (s r : string) :
  strip_any_prefix ps s = Some r → ∃ p, p ∈ ps ∧ s = p +:+ r.
Proof.
  induction ps as [|p ps IH]; simpl; [discriminate|].
  destruct (strip_prefix p s) as [r'|] eqn:Hp.
  - intros [= <-]. exists p. split; [left|]. by apply strip_prefix_app.
  - intros Hr. destruct (IH Hr) as (q & Hq & ->). exists q. split; [by right|done].
Qed.

Lemma has_byte_app (n : N) (a b : string) :
  has_byte n (a +:+ b) = has_byte n a || has_byte n b.
Proof.
  induction a as [|c a IH]; [done|].
  change (String c a +:+ b) with (String c (a +:+ b)). simpl.
  by rewrite IH, orb_assoc.
Qed.

(** A match of a literal that ends in a colon needs a colon. *)
Lemma match_literal_colon (pat : list (list string)) (s r : string) :
  match_literal (pat ++ [[":"]]) s = Some r → has_byte 58 s = true.
Proof.
  revert s. induction pat as [|alts pat IH]; intros s; cbn [match_literal app].
  - destruct (strip_any_prefix [":"] s) as [r'|] eqn:Hs; [|discriminate].
    intros _. apply strip_any_prefix_app in Hs as (p & Hp & ->).
    apply list_elem_of_singleton in Hp as ->. done.
  - destruct (strip_any_prefix alts s) as [r'|] eqn:Hs; [|discriminate].
    intros Hr. apply strip_any_prefix_app in Hs as (p & _ & ->).
    rewrite has_byte_app, (IH _ Hr). apply orb_true_r.
Qed.

Lemma after_last_presents_no_colon (s : string) :
  has_byte 58 s = false → after_last_presents s = None.
Proof.
  induction s as [|c s IH]; [done|].
  intros Hs. pose proof Hs as Hs'. simpl in Hs'.
  apply orb_false_elim in Hs' as [_ Htail].
  cbn [after_last_presents]. rewrite (IH Htail).
  assert (Hlit : match_literal presents_literal (String c s) = None).
  { destruct (match_literal presents_literal (String c s)) as [r|] eqn:Hm; [|done].
    change presents_literal
      with ([ ["p"; "P"]; ["r"; "R"]; ["e"; "E"]; ["s"; "S"; bytes [197; 191]%N];
              ["e"; "E"]; ["n"; "N"]; ["t"; "T"];
              ["s"; "S"; bytes [197; 191]%N] ] ++ [[":"]]) in Hm.
    apply match_literal_colon in Hm. congruence. }
  rewrite Hlit. by destruct (byte_eqb 10 c).
Qed.

Lemma has_close_false_re_remove (s : string) :
  has_close s = false → re_remove false s = s.
Proof.
  induction s as [|c s IH]; [done|]. simpl.
  destruct (byte_eqb 93 c); [discriminate|]. intros Hs.
  rewrite Hs, andb_false_r. by rewrite IH.
Qed.

Lemma re_remove_no_open (s : string) :
  has_byte 91 s = false → re_remove false s = s.
Proof.
  induction s as [|c s IH]; [done|]. simpl.
  destruct (byte_eqb 91 c); [discriminate|]. simpl. intros Hs. by rewrite IH.
Qed.

(** X4. A title that [TrimSpace] leaves as it is and that has neither an
    opening bracket nor a colon has one variant, the title: such a film
    costs one request. *)
Theorem cleanTitle_plain_title (t : string) :
  TrimSpace t = t → has_byte 91 t = false → has_byte 58 t = false →
  cleanTitle t = [t].
Proof.
  intros Htrim Hopen Hcolon. unfold cleanTitle.
  unfold re_ReplaceAllString, presentsRe_ReplaceAllString.
  rewrite (re_remove_no_open t Hopen), Htrim.
  rewrite (after_last_presents_no_colon t Hcolon), Htrim.
  repeat case_bool_decide; naive_solver.
Qed.

Lemma cleanTitle_plain_title_witness :
  TrimSpace "Safe" = "Safe" ∧ has_byte 91 "Safe" = false
  ∧ has_byte 58 "Safe" = false ∧ cleanTitle "Safe" = ["Safe"].
Proof.
  split; [vm_compute; reflexivity|].
  split; [vm_compute; reflexivity|].
  split; [vm_compute; reflexivity|].
  apply (cleanTitle_plain_title "Safe"); vm_compute; reflexivity.
Defined.

(** X5. The variants repeat an entry in one way only: when stripping the
    brackets and stripping the presenter give the same text, that text is
    listed twice, right after the title.  In every other case the variants
    are pairwise different. *)
Theorem cleanTitle_repeats_only_second (t : string) :
  NoDup (cleanTitle t) ∨ ∃ v rest, cleanTitle t = t :: v :: v :: rest.
Proof.
  unfold cleanTitle.
  set (wb := TrimSpace (re_ReplaceAllString t)).
  set (wp := TrimSpace (presentsRe_ReplaceAllString t)).
  set (w2 := TrimSpace (presentsRe_ReplaceAllString wb)).
  assert (Hsmall : ∀ l : list string,
            (∀ i j x, (i < j)%nat → l !! i = Some x → l !! j = Some x → False) →
            NoDup l).
  { intros l Hl. apply NoDup_alt. intros i j x Hi Hj.
    destruct (Nat.lt_trichotomy i j) as [Hlt|[->|Hgt]]; [|done|];
      exfalso; eauto. }
  destruct (decide (wb = wp)) as [Heq|Hne].
  - repeat case_bool_decide; simpl;
      first [ right; rewrite Heq; by eauto
            | left; apply Hsmall; intros [|[|[|[|i]]]] [|[|[|[|j]]]] x Hlt;
              simpl; intros; simplify_eq; (lia || naive_solver) ].
  - left. repeat case_bool_decide; simpl;
      apply Hsmall; intros [|[|[|[|i]]]] [|[|[|[|j]]]] x Hlt;
      simpl; intros; simplify_eq; (lia || naive_solver).
Qed.

(** X6. Stripping the bracketed annotations leaves none: stripping a second
    time changes nothing. *)
Theorem re_ReplaceAllString_idempotent (s : string) :
  re_ReplaceAllString (re_ReplaceAllString s) = re_ReplaceAllString s.
Proof.
  unfold re_ReplaceAllString.
  assert (Hboth : re_remove false (re_remove false s) = re_remove false s
                  ∧ re_remove false (re_remove true s) = re_remove true s);
    [|by destruct Hboth].
  induction s as [|c s [IH1 IH2]]; [done|]. simpl. split.
  - destruct (byte_eqb 91 c) eqn:Hopen; simpl.
    + destruct (has_close s) eqn:Hclose; [exact IH2|].
      simpl. rewrite Hopen. simpl.
      rewrite (has_close_false_re_remove s Hclose), Hclose.
      by rewrite (has_close_false_re_remove s Hclose).
    + rewrite Hopen. simpl. by rewrite IH1.
  - by destruct (byte_eqb 93 c).
Qed.

(** ** CatalogMatcher, further *)

#[local] Arguments paced : simpl never.

Lemma cleanTitle_length (t : string) : (length (cleanTitle t) ≤ 4)%nat.
Proof. unfold cleanTitle. repeat case_bool_decide; simpl; lia. Qed.

Lemma paced_app (l1 l2 : list (TMDBQuery * result TMDBResponse)) :
  paced (l1 ++ l2) = paced l1 ++ paced l2.
Proof. unfold paced. apply bind_app. Qed.

Lemma tmdb_lookups_paced (l : list (TMDBQuery * result TMDBResponse)) :
  tmdb_lookups (paced l) = l.
Proof.
  induction l as [|[q r] l IH]; [done|].
  change (paced ((q, r) :: l)) with (paced [(q, r)] ++ paced l).
  rewrite tmdb_lookups_app, IH. done.
Qed.

Section Matcher_more.
Context {W : Type} `{Handler W}.

(** One search is one paced request, and its outcome is read off the
    answer. *)
Lemma searchTMDBWithTitle_paced (title : string) (year : Z) (apiKey : string)
    (w : W) :
  let o := searchTMDBWithTitle title year apiKey w in
  ∃ r, events o = paced [(search_query title year apiKey, r)]
     ∧ match value o with
       | Ok (Some movie) =>
           ∃ movies, r = Ok (mkTMDBResponse 200 (Ok (movie :: movies)))
       | Ok None => no_candidate (search_query title year apiKey, r)
       | Err _ => failed_answer (search_query title year apiKey, r)
       end.
Proof.
  unfold searchTMDBWithTitle, bind, call; simpl.
  destruct (handle () (TimeSleep 250) w) as [[] w1]; simpl.
  fold (search_query title year apiKey).
  destruct (handle _ (HttpGet _) w1) as [[[status results]|e] w2]; simpl.
  - destruct (Z.eqb_spec status 200) as [->|Hne]; simpl.
    + destruct results as [[|movie movies]|e]; simpl;
        (eexists; split; [reflexivity|]); unfold no_candidate, failed_answer;
        simpl; eauto.
    + eexists; split; [reflexivity|]. unfold failed_answer. simpl. by left.
  - eexists; split; [reflexivity|]. done.
Qed.

(** The loop over the variations: the requests are paced, they follow the
    variations in order, and the loop stops at the first answer that is not
    an empty list of candidates. *)
Lemma SearchTMDB_try_first_match (title : string) (year : Z) (apiKey : string)
    (variations : list string) (w : W) :
  let o := SearchTMDB_try title year apiKey variations w in
  ∃ ls, events o = paced ls
      ∧ ls.*1 `prefix_of` (λ v, search_query v year apiKey) <$> variations
      ∧ match value o with
        | Ok movie =>
            ∃ pre q movies,
              ls = pre ++ [(q, Ok (mkTMDBResponse 200 (Ok (movie :: movies))))]
              ∧ Forall no_candidate pre
        | Err _ =>
            (Forall no_candidate ls ∧ length ls = length variations)
            ∨ ∃ pre l, ls = pre ++ [l] ∧ Forall no_candidate pre ∧ failed_answer l
        end.
Proof.
  cbv zeta. revert w. induction variations as [|v rest IH]; intros w.
  - exists []. repeat split; try done. left. split; [constructor|done].
  - rewrite SearchTMDB_try_cons. run.
    destruct (searchTMDBWithTitle_paced v year apiKey w) as (r & Hev & Hval).
    cbv zeta in Hev, Hval. rewrite Hev.
    destruct (value (searchTMDBWithTitle v year apiKey w)) as [[movie|]|e]; cbn.
    + destruct Hval as [movies ->].
      eexists [(_, _)]. rewrite app_nil_r. split; [done|]. split.
      * cbn. apply prefix_cons, prefix_nil.
      * exists [], (search_query v year apiKey), movies. split; [done|constructor].
    + destruct (IH (world (searchTMDBWithTitle v year apiKey w)))
        as (ls & Hev' & Hpre & Hval').
      exists ((search_query v year apiKey, r) :: ls). rewrite Hev'.
      split; [done|]. split; [cbn; by apply prefix_cons|].
      destruct (value (SearchTMDB_try title year apiKey rest _)) as [movie|e].
      * destruct Hval' as (pre & q & movies & -> & Hnone).
        exists ((search_query v year apiKey, r) :: pre), q, movies.
        split; [done|]. by constructor.
      * destruct Hval' as [[Hnone Hlen]|(pre & l & -> & Hnone & Hfail)].
        -- left. split; [by constructor|]. cbn. by rewrite Hlen.
        -- right. exists ((search_query v year apiKey, r) :: pre), l.
           split; [done|]. split; [by constructor|done].
    + eexists [(_, _)]. rewrite app_nil_r. split; [done|]. split.
      * cbn. apply prefix_cons, prefix_nil.
      * right. exists [], (search_query v year apiKey, r).
        split; [done|]. split; [constructor|done].
Qed.

(** X7. Without a key nothing is looked up: [SearchTMDB] returns its error
    before any call, and [populateIMDBID] makes no call and leaves every film
    as it is. *)
Theorem populateIMDBID_without_key (films : list Film) (title : string)
    (year : Z) (w : W) :
  value (SearchTMDB title year "" w) = Err "TMDB API key is required"
  ∧ events (SearchTMDB title year "" w) = []
  ∧ value (populateIMDBID films "" w) = films
  ∧ events (populateIMDBID films "" w) = []
  ∧ world (populateIMDBID films "" w) = w.
Proof.
  split; [done|]. split; [done|].
  assert (Hfilm : ∀ film, populate_film "" film w = ret film w).
  { intros film. unfold populate_film.
    rewrite bool_decide_eq_false_2; [done|]. intros Hne. by apply Hne. }
  induction films as [|film films (IHv & IHe & IHw)]; [done|].
  cbn [populateIMDBID]. run. rewrite !Hfilm. cbn.
  by rewrite IHv, IHe, IHw.
Qed.

(** X8. The matching pass changes nothing of a film but its identifier:
    the films come back in the same number and order, each with its title,
    metadata, director, year and secondary identifier. *)
Theorem populateIMDBID_changes_only_TMDBID (films : list Film) (key : string)
    (w : W) :
  Forall2 (λ film film', film' = set_TMDBID film (TMDBID film'))
    films (value (populateIMDBID films key w)).
Proof.
  revert w. induction films as [|film films IH]; intros w; [constructor|].
  cbn [populateIMDBID]. run. constructor; [|apply IH].
  unfold populate_film. case_bool_decide; [|by destruct film].
  run. destruct (value (SearchTMDB _ _ _ w)); cbn; by destruct film.
Qed.

(** X9. Every request of the matching pass comes right after a pause of 250
    ms, the pass makes no other call, and it makes at most four requests
    for a film. *)
Theorem populateIMDBID_requests_are_paced (films : list Film) (key : string)
    (w : W) :
  events (populateIMDBID films key w)
  = paced (tmdb_lookups (events (populateIMDBID films key w)))
  ∧ (length (tmdb_lookups (events (populateIMDBID films key w)))
     ≤ 4 * length films)%nat.
Proof.
  assert (Hex : ∃ ls, events (populateIMDBID films key w) = paced ls
                      ∧ (length ls ≤ 4 * length films)%nat).
  { revert w. induction films as [|film films IH]; intros w.
    - exists []. split; [done|]. simpl. lia.
    - cbn [populateIMDBID]. run.
      destruct (IH (world (populate_film key film w))) as (ls' & -> & Hlen').
      assert (Hfilm : ∃ ls, events (populate_film key film w) = paced ls
                            ∧ (length ls ≤ 4)%nat).
      { unfold populate_film. case_bool_decide as Hkey.
        - run. unfold SearchTMDB. rewrite bool_decide_eq_false_2 by done.
          destruct (SearchTMDB_try_first_match (Title film) (Year film) key
                      (cleanTitle (Title film)) w) as (ls & Hev & Hpre & _).
          cbv zeta in Hev. rewrite Hev. exists ls. split.
          + by destruct (value (SearchTMDB_try _ _ _ _ w)); cbn;
              rewrite app_nil_r.
          + apply prefix_length in Hpre.
            rewrite !length_fmap in Hpre.
            pose proof (cleanTitle_length (Title film)). lia.
        - exists []. split; [done|]. simpl. lia. }
      destruct Hfilm as (ls & -> & Hlen).
      exists (ls ++ ls'). rewrite app_nil_r, paced_app. split; [done|].
      rewrite length_app. simpl. lia. }
  destruct Hex as (ls & Hev & Hlen).
  rewrite Hev, tmdb_lookups_paced. done.
Qed.

(** X10. With a key, [SearchTMDB] asks for the variants of the title in
    their order, all with the same year, and stops at the first answer that
    is not an empty list of candidates.  It returns a movie exactly when the
    last answer lists that movie first, every earlier answer being empty;
    otherwise every variant got an empty answer, or the last request
    failed. *)
Theorem SearchTMDB_first_match (title : string) (year : Z) (key : string) (w : W) :
  key ≠ "" →
  let o := SearchTMDB title year key w in
  let ls := tmdb_lookups (events o) in
  ls.*1 `prefix_of` (λ v, search_query v year key) <$> cleanTitle title
  ∧ match value o with
    | Ok movie =>
        ∃ pre q movies,
          ls = pre ++ [(q, Ok (mkTMDBResponse 200 (Ok (movie :: movies))))]
          ∧ Forall no_candidate pre
    | Err _ =>
        (Forall no_candidate ls ∧ length ls = length (cleanTitle title))
        ∨ ∃ pre l, ls = pre ++ [l] ∧ Forall no_candidate pre ∧ failed_answer l
    end.
Proof.
  intros Hkey o ls. subst o ls. unfold SearchTMDB.
  rewrite bool_decide_eq_false_2 by done.
  destruct (SearchTMDB_try_first_match title year key (cleanTitle title) w)
    as (ls & Hev & Hpre & Hval).
  cbv zeta in Hev, Hval. rewrite Hev, tmdb_lookups_paced. done.
Qed.
End Matcher_more.

Lemma SearchTMDB_first_match_witness :
  "k" ≠ ""
  ∧ (tmdb_lookups (events (SearchTMDB "B" 0 "k" fake_tmdb))).*1
    `prefix_of` (λ v, search_query v 0 "k") <$> cleanTitle "B"
  ∧ match value (SearchTMDB "B" 0 "k" fake_tmdb) with
    | Ok movie =>
        ∃ pre q movies,
          tmdb_lookups (events (SearchTMDB "B" 0 "k" fake_tmdb))
          = pre ++ [(q, Ok (mkTMDBResponse 200 (Ok (movie :: movies))))]
          ∧ Forall no_candidate pre
    | Err _ =>
        (Forall no_candidate (tmdb_lookups (events (SearchTMDB "B" 0 "k" fake_tmdb)))
         ∧ length (tmdb_lookups (events (SearchTMDB "B" 0 "k" fake_tmdb)))
           = length (cleanTitle "B"))
        ∨ ∃ pre l,
            tmdb_lookups (events (SearchTMDB "B" 0 "k" fake_tmdb)) = pre ++ [l]
            ∧ Forall no_candidate pre ∧ failed_answer l
    end.
Proof.
  split; [done|].
  apply (SearchTMDB_first_match "B" 0 "k" fake_tmdb). done.
Defined.

(** ** CatalogStore, further *)

#[local] Arguments validMovies : simpl never.

Lemma validMovies_dedupeFilms (s col : Series) :
  validMovies col
  ≤ validMovies (set_Movies s (dedupeFilms (Movies col) (Movies s))).
Proof.
  rewrite !validMovies_count. simpl.
  rewrite dedupeFilms_unfold, filter_app, length_app. lia.
Qed.

Section Store_more.
Context {W : Type} `{Handler W}.

(** X11. Whatever the order in which the map is visited, [writeToFile] makes
    one write, to the file named by the day, of the day and exactly the
    series with more than two resolved films.  When the write succeeds it
    returns no error; when the write fails it does not return: the process
    ends there. *)
Theorem writeToFile_persists_exactly_eligible
    (scrappedSeries : gmap string Series) (w : W) :
  (handle _ (RangeMap scrappedSeries) w).1 ≡ₚ map_to_list scrappedSeries →
  ∃ entries today r,
    events (writeToFile scrappedSeries w)
    = [Ev (RangeMap scrappedSeries) entries; Ev TimeNow today;
       Ev (OsWriteFile (today +:+ ".json")
             (mkScrapedData today
                (filter (λ kv, 2 < validMovies kv.2) scrappedSeries))) r]
    ∧ match r with
      | Ok _ => value (writeToFile scrappedSeries w) = Returns (Ok ())
      | Err _ => ∃ msg, value (writeToFile scrappedSeries w) = Exits msg
      end.
Proof.
  intros Hperm. unfold writeToFile. run.
  rewrite (writeToFile_filter_map scrappedSeries _ Hperm).
  destruct (handle _ (RangeMap scrappedSeries) w) as [entries w1]; cbn.
  destruct (handle _ TimeNow w1) as [today w2]; cbn.
  destruct (handle _ (OsWriteFile _ _) w2) as [[[]|e] w3]; cbn;
    eexists _, _, _; (split; [reflexivity|]); cbn; eauto.
Qed.

(** X12. [UpdateFileStore] fails fast: when the previous snapshot cannot be
    read, or is read and cannot be parsed, it returns an error after that one
    call and writes nothing. *)
Theorem UpdateFileStore_fails_fast (scrappedData : gmap string Series)
    (curFilePath : string) (w : W) :
  match (handle _ (OsReadFile curFilePath) w).1 with
  | Ok (Ok _) => True
  | unread =>
      (∃ e, value (UpdateFileStore scrappedData curFilePath w) = Returns (Err e))
      ∧ events (UpdateFileStore scrappedData curFilePath w)
        = [Ev (OsReadFile curFilePath) unread]
  end.
Proof.
  unfold UpdateFileStore. run.
  destruct (handle _ (OsReadFile curFilePath) w) as [[[fileData|e]|e] w1]; cbn;
    eauto.
Qed.

(** What [UpdateFileStore] writes, whatever the order of its two visits: for
    each scraped series, the series with the films of the previous snapshot
    first when the snapshot has it, kept when it then has more than two
    resolved films. *)
Lemma UpdateFileStore_writes (scrappedData : gmap string Series)
    (curFilePath : string) (w : W) (fileData : ScrapedData) :
  let w1 := (handle _ (OsReadFile curFilePath) w).2 in
  let entries := (handle _ (RangeMap scrappedData) w1).1 in
  let w2 := (handle _ (RangeMap scrappedData) w1).2 in
  let merged := UpdateFileStore_merge (Collections fileData) scrappedData entries in
  (handle _ (OsReadFile curFilePath) w).1 = Ok (Ok fileData) →
  entries ≡ₚ map_to_list scrappedData →
  (handle _ (RangeMap merged) w2).1 ≡ₚ map_to_list merged →
  ∃ today r written,
    Ev (OsWriteFile (today +:+ ".json") (mkScrapedData today written)) r
    ∈ events (UpdateFileStore scrappedData curFilePath w)
    ∧ ∀ id,
        written !! id
        = s ← scrappedData !! id;
          let s' := match Collections fileData !! id with
                    | Some col => set_Movies s (dedupeFilms (Movies col) (Movies s))
                    | None => s
                    end in
          if 2 <? validMovies s' then Some s' else None.
Proof.
  intros w1 entries w2 merged Hread Hperm Hperm'.
  unfold UpdateFileStore. run. rewrite Hread. cbn. fold w1. run.
  fold entries w2 merged.
  destruct (writeToFile_writes_eligible merged w2 Hperm') as (es & today & r & ->).
  exists today, r, (filter (λ kv, 2 < validMovies kv.2) merged). split.
  - rewrite !elem_of_cons. right. right. right. right. by left.
  - intros id. rewrite map_lookup_filter.
    unfold merged. rewrite (UpdateFileStore_merge_lookup _ _ _ _ Hperm).
    destruct (scrappedData !! id) as [s|]; [|done]. cbn.
    destruct (Z.ltb_spec 2 (validMovies
                (match Collections fileData !! id with
                 | Some col => set_Movies s (dedupeFilms (Movies col) (Movies s))
                 | None => s
                 end))).
    + by rewrite option_guard_True.
    + rewrite option_guard_False; [done|]. simpl. lia.
Qed.

(** X13. A series that the previous snapshot holds with more than two
    resolved films and that is scraped again is written again: with the
    name and URL of the scrape, the films of the snapshot first, unchanged
    and in their order, and then the scraped films whose title is new. *)
Theorem UpdateFileStore_keeps_eligible_series (scrappedData : gmap string Series)
    (curFilePath : string) (w : W) (fileData : ScrapedData) (id : string)
    (col s : Series) :
  let w1 := (handle _ (OsReadFile curFilePath) w).2 in
  let entries := (handle _ (RangeMap scrappedData) w1).1 in
  let w2 := (handle _ (RangeMap scrappedData) w1).2 in
  let merged := UpdateFileStore_merge (Collections fileData) scrappedData entries in
  (handle _ (OsReadFile curFilePath) w).1 = Ok (Ok fileData) →
  entries ≡ₚ map_to_list scrappedData →
  (handle _ (RangeMap merged) w2).1 ≡ₚ map_to_list merged →
  Collections fileData !! id = Some col →
  scrappedData !! id = Some s →
  2 < validMovies col →
  ∃ today r written,
    Ev (OsWriteFile (today +:+ ".json") (mkScrapedData today written)) r
    ∈ events (UpdateFileStore scrappedData curFilePath w)
    ∧ written !! id
      = Some (set_Movies s (Movies col ++ fresh_films (Movies col) (Movies s))).
Proof.
  intros w1 entries w2 merged Hread Hperm Hperm' Hcol Hs Hvalid.
  destruct (UpdateFileStore_writes scrappedData curFilePath w fileData
              Hread Hperm Hperm') as (today & r & written & Hev & Hwritten).
  exists today, r, written. split; [done|].
  rewrite Hwritten, Hs, Hcol. cbn.
  pose proof (validMovies_dedupeFilms s col) as Hle.
  destruct (Z.ltb_spec 2 (validMovies
              (set_Movies s (dedupeFilms (Movies col) (Movies s))))); [|lia].
  by rewrite dedupeFilms_unfold.
Qed.

(** X14. A series that the new scrape does not have is not written, even
    when the previous snapshot holds it with resolved films: the snapshot
    only feeds the series that are scraped again. *)
Theorem UpdateFileStore_drops_unscraped_series (scrappedData : gmap string Series)
    (curFilePath : string) (w : W) (fileData : ScrapedData) (id : string) :
  let w1 := (handle _ (OsReadFile curFilePath) w).2 in
  let entries := (handle _ (RangeMap scrappedData) w1).1 in
  let w2 := (handle _ (RangeMap scrappedData) w1).2 in
  let merged := UpdateFileStore_merge (Collections fileData) scrappedData entries in
  (handle _ (OsReadFile curFilePath) w).1 = Ok (Ok fileData) →
  entries ≡ₚ map_to_list scrappedData →
  (handle _ (RangeMap merged) w2).1 ≡ₚ map_to_list merged →
  scrappedData !! id = None →
  ∃ today r written,
    Ev (OsWriteFile (today +:+ ".json") (mkScrapedData today written)) r
    ∈ events (UpdateFileStore scrappedData curFilePath w)
    ∧ written !! id = None.
Proof.
  intros w1 entries w2 merged Hread Hperm Hperm' Hs.
  destruct (UpdateFileStore_writes scrappedData curFilePath w fileData
              Hread Hperm Hperm') as (today & r & written & Hev & Hwritten).
  exists today, r, written. split; [done|].
  by rewrite Hwritten, Hs.
Qed.
End Store_more.

Lemma writeToFile_persists_exactly_eligible_witness :
  (handle _ (RangeMap scrape_mixed) fake_store).1 ≡ₚ map_to_list scrape_mixed
  ∧ filter (λ kv, 2 < validMovies kv.2) scrape_mixed = {[ "s3" := series_three ]}
  ∧ ∃ entries today r,
      events (writeToFile scrape_mixed fake_store)
      = [Ev (RangeMap scrape_mixed) entries; Ev TimeNow today;
         Ev (OsWriteFile (today +:+ ".json")
               (mkScrapedData today
                  (filter (λ kv, 2 < validMovies kv.2) scrape_mixed))) r]
      ∧ match r with
        | Ok _ => value (writeToFile scrape_mixed fake_store) = Returns (Ok ())
        | Err _ => ∃ msg, value (writeToFile scrape_mixed fake_store) = Exits msg
        end.
Proof.
  assert (Hperm : (handle _ (RangeMap scrape_mixed) fake_store).1
                  ≡ₚ map_to_list scrape_mixed) by reflexivity.
  split; [exact Hperm|]. split; [vm_compute; reflexivity|].
  exact (writeToFile_persists_exactly_eligible scrape_mixed fake_store Hperm).
Defined.

Lemma UpdateFileStore_keeps_eligible_series_witness :
  (handle _ (OsReadFile "2025-01-14.json") fake_store).1 = Ok (Ok previous_snapshot)
  ∧ Collections previous_snapshot !! "s3" = Some series_three
  ∧ new_scrape !! "s3" = Some series_three_rescraped
  ∧ 2 < validMovies series_three
  ∧ ∃ today r written,
      Ev (OsWriteFile (today +:+ ".json") (mkScrapedData today written)) r
      ∈ events (UpdateFileStore new_scrape "2025-01-14.json" fake_store)
      ∧ written !! "s3"
        = Some (set_Movies series_three_rescraped
                  (Movies series_three
                   ++ fresh_films (Movies series_three)
                        (Movies series_three_rescraped))).
Proof.
  assert (Hread : (handle _ (OsReadFile "2025-01-14.json") fake_store).1
                  = Ok (Ok previous_snapshot)) by (vm_compute; reflexivity).
  assert (Hcol : Collections previous_snapshot !! "s3" = Some series_three)
    by (vm_compute; reflexivity).
  assert (Hs : new_scrape !! "s3" = Some series_three_rescraped)
    by (vm_compute; reflexivity).
  assert (Hvalid : 2 < validMovies series_three) by (vm_compute; reflexivity).
  repeat (split; [assumption|]).
  exact (UpdateFileStore_keeps_eligible_series new_scrape "2025-01-14.json"
           fake_store previous_snapshot "s3" series_three series_three_rescraped
           Hread (reflexivity _) (reflexivity _) Hcol Hs Hvalid).
Defined.

Lemma UpdateFileStore_drops_unscraped_series_witness :
  (handle _ (OsReadFile "2025-01-14.json") fake_store).1 = Ok (Ok previous_snapshot)
  ∧ Collections previous_snapshot !! "s9" = Some series_gone
  ∧ new_scrape !! "s9" = None
  ∧ ∃ today r written,
      Ev (OsWriteFile (today +:+ ".json") (mkScrapedData today written)) r
      ∈ events (UpdateFileStore new_scrape "2025-01-14.json" fake_store)
      ∧ written !! "s9" = None.
Proof.
  assert (Hread : (handle _ (OsReadFile "2025-01-14.json") fake_store).1
                  = Ok (Ok previous_snapshot)) by (vm_compute; reflexivity).
  assert (Hs : new_scrape !! "s9" = None) by (vm_compute; reflexivity).
  split; [exact Hread|]. split; [vm_compute; reflexivity|]. split; [exact Hs|].
  exact (UpdateFileStore_drops_unscraped_series new_scrape "2025-01-14.json"
           fake_store previous_snapshot "s9" Hread (reflexivity _) (reflexivity _) Hs).
Defined.

(** ** Radarr client, further *)



Lemma find_tag_Some (name : string) (tags : list Tag) (tag : Tag) :
  find_tag name tags = Some tag → tag ∈ tags ∧ tag_Label tag = name.
Proof.
  unfold find_tag. induction tags as [|t tags IH]; simpl; [discriminate|].
  case_bool_decide as Hl.
  - intros [= <-]. split; [left|done].
  - intros Hf. destruct (IH Hf) as [Hin Hlabel]. split; [by right|done].
Qed.

Lemma find_tag_None (name : string) (tags : list Tag) :
  find_tag name tags = None → ∀ tag, tag ∈ tags → tag_Label tag ≠ name.
Proof.
  unfold find_tag. induction tags as [|t tags IH]; simpl.
  - intros _ tag Hin. by apply elem_of_nil in Hin.
  - case_bool_decide as Hl; [discriminate|].
    intros Hf tag [->|Hin]%elem_of_cons; [done|by apply IH].
Qed.

(** *** [containsAny] *)

Lemma substring_0_app (sub post : string) :
  substring 0 (String.length sub) (sub +:+ post) = sub.
Proof.
  induction sub as [|c sub IH]; simpl.
  - by destruct post.
  - change (String c sub +:+ post) with (String c (sub +:+ post)).
    by rewrite IH.
Qed.

Lemma substring_skip (pre s : string) (m : nat) :
  substring (String.length pre) m (pre +:+ s) = substring 0 m s.
Proof.
  induction pre as [|c pre IH]; [done|].
  change (String c pre +:+ s) with (String c (pre +:+ s)). simpl. exact IH.
Qed.

Lemma substring_0_inv (sub s : string) :
  substring 0 (String.length sub) s = sub → ∃ post, s = sub +:+ post.
Proof.
  revert s. induction sub as [|c sub IH]; intros s; simpl.
  - intros _. by exists s.
  - destruct s as [|b s]; [discriminate|].
    intros [= -> Hs]. destruct (IH _ Hs) as [post ->]. by exists post.
Qed.

Lemma substring_inv (i : nat) (sub s : string) :
  (i ≤ String.length s)%nat →
  substring i (String.length sub) s = sub →
  ∃ pre post, s = pre +:+ sub +:+ post ∧ String.length pre = i.
Proof.
  revert s. induction i as [|i IH]; intros s Hlen Hsub.
  - destruct (substring_0_inv sub s Hsub) as [post ->]. by exists "", post.
  - destruct s as [|c s]; [simpl in Hlen; lia|].
    simpl in Hlen. simpl in Hsub.
    destruct (IH s ltac:(lia) Hsub) as (pre & post & -> & <-).
    by exists (String c pre), post.
Qed.

Lemma string_length_app (a b : string) :
  String.length (a +:+ b) = (String.length a + String.length b)%nat.
Proof.
  induction a as [|c a IH]; [done|].
  change (String c a +:+ b) with (String c (a +:+ b)). simpl. by rewrite IH.
Qed.

Lemma containsAny_occurs_helper (s : string) (substrs : list string) :
  containsAny s substrs = true → ∃ sub, sub ∈ substrs ∧ occurs_in sub s.
Proof.
  unfold containsAny. rewrite existsb_exists.
  intros (sub & Hin & Hsub). exists sub. split; [by apply list_elem_of_In|].
  apply andb_prop in Hsub as [Hlen Hex].
  apply Nat.leb_le in Hlen.
  apply existsb_exists in Hex as (i & Hi & Heq).
  apply in_seq in Hi. apply String.eqb_eq in Heq.
  destruct (substring_inv i sub s ltac:(lia) Heq) as (pre & post & -> & _).
  by exists pre, post.
Qed.

(** X17. [containsAny s substrs] holds exactly when one of the texts of
    [substrs] occurs somewhere in [s]. *)
Theorem containsAny_occurs (s : string) (substrs : list string) :
  containsAny s substrs = true ↔ ∃ sub, sub ∈ substrs ∧ occurs_in sub s.
Proof.
  split; [apply containsAny_occurs_helper|].
  unfold containsAny. rewrite existsb_exists.
  - intros (sub & Hin & pre & post & ->). exists sub.
    split; [by apply list_elem_of_In|].
    rewrite !string_length_app.
    apply andb_true_intro. split; [apply Nat.leb_le; lia|].
    apply existsb_exists. exists (String.length pre). split.
    + apply in_seq. lia.
    + apply String.eqb_eq. by rewrite substring_skip, substring_0_app.
Qed.

(** *** The tag merge of [AddMovie] *)

(** X19. The tag merge keeps the tags of the movie where they are, holds
    every requested id, and holds nothing else; merging the same request
    into the result adds nothing, so a second [AddMovie] sends no update.
    When neither list repeats an id the result repeats none. *)
Theorem merge_tags_keeps_and_adds (existingTags tagIDs : list Z) (t : Z) :
  existingTags `prefix_of` (merge_tags existingTags tagIDs).1
  ∧ (t ∈ (merge_tags existingTags tagIDs).1 ↔ t ∈ existingTags ∨ t ∈ tagIDs)
  ∧ merge_tags (merge_tags existingTags tagIDs).1 tagIDs
    = ((merge_tags existingTags tagIDs).1, 0)
  ∧ (NoDup existingTags → NoDup tagIDs →
     NoDup (merge_tags existingTags tagIDs).1).
Proof.
  rewrite !merge_tags_spec. cbn [fst].
  split; [|split; [|split]].
  - by apply prefix_app_r.
  - rewrite elem_of_app, list_elem_of_filter.
    destruct (decide (t ∈ existingTags)); naive_solver.
  - assert (Hnone : filter
        (λ t0, t0 ∉ existingTags ++ filter (λ t1, t1 ∉ existingTags) tagIDs)
        tagIDs = []).
    { apply filter_none. intros x Hx Hn. apply Hn.
      rewrite elem_of_app, list_elem_of_filter.
      destruct (decide (x ∈ existingTags)); [by left|by right]. }
    rewrite Hnone. by rewrite app_nil_r.
  - intros Hex Hreq. apply NoDup_app. split; [done|]. split.
    + intros x Hx Hf. by apply list_elem_of_filter in Hf as [Hn _].
    + by apply NoDup_filter.
Qed.

Section Radarr_more.
Context {W : Type} `{Handler W}.

(** X15. [CreateTag] is create-if-absent by label.  It lists the tags once.
    When the listing fails it returns an error and adds nothing.  When a
    listed tag has the label it returns the id of the first such tag and
    adds nothing.  When no listed tag has the label it adds one tag, with
    that label, and returns its id, or an error when the addition fails. *)
Theorem CreateTag_adds_only_when_absent (name : string) (w : W) :
  let o := CreateTag name w in
  (∃ listing e, events o = [Ev RadarrGetTags (Err listing)] ∧ value o = Err e)
  ∨ (∃ tags tag,
       events o = [Ev RadarrGetTags (Ok tags)]
       ∧ find_tag name tags = Some tag ∧ tag ∈ tags ∧ tag_Label tag = name
       ∧ value o = Ok (tag_ID tag))
  ∨ (∃ tags added,
       events o = [Ev RadarrGetTags (Ok tags); Ev (RadarrAddTag name) added]
       ∧ Forall (λ tag, tag_Label tag ≠ name) tags
       ∧ match added with
         | Ok tag => value o = Ok (tag_ID tag)
         | Err _ => ∃ e, value o = Err e
         end).
Proof.
  unfold CreateTag. cbv zeta. run.
  destruct (handle _ RadarrGetTags w) as [[tags|e] w1]; cbn.
  - destruct (find_tag name tags) as [tag|] eqn:Hfind; cbn.
    + right. left. exists tags, tag.
      destruct (find_tag_Some _ _ _ Hfind) as [Hin Hlabel].
      by repeat split.
    + right. right. exists tags. run.
      destruct (handle _ (RadarrAddTag name) w1) as [[created|e] w2]; cbn;
        eexists; (split; [reflexivity|]);
        (split; [apply Forall_forall; by apply find_tag_None|]); eauto.
  - left. eauto.
Qed.

(** X16. [DeleteTag] lists the tags and deletes at most one: the first
    listed tag with the label.  When no tag has the label it returns an
    error and deletes nothing. *)
Theorem DeleteTag_deletes_first_with_label (tagName : string) (w : W) :
  let o := DeleteTag tagName w in
  (∃ listed e, events o = [Ev RadarrGetTags listed] ∧ value o = Err e
               ∧ match listed with
                 | Ok tags => Forall (λ tag, tag_Label tag ≠ tagName) tags
                 | Err _ => True
                 end)
  ∨ (∃ tags tag deleted,
       events o = [Ev RadarrGetTags (Ok tags);
                   Ev (RadarrDeleteTag (tag_ID tag)) deleted]
       ∧ find_tag tagName tags = Some tag ∧ tag ∈ tags ∧ tag_Label tag = tagName
       ∧ (value o = Ok () ↔ deleted = Ok ())).
Proof.
  unfold DeleteTag, GetTagIDByName. cbv zeta. run.
  destruct (handle _ RadarrGetTags w) as [[tags|e] w1]; cbn.
  - destruct (find_tag tagName tags) as [tag|] eqn:Hfind; cbn.
    + right. run. exists tags, tag.
      destruct (find_tag_Some _ _ _ Hfind) as [Hin Hlabel].
      destruct (handle _ (RadarrDeleteTag (tag_ID tag)) w1) as [[[]|e] w2]; cbn;
        eexists; (split; [reflexivity|]); repeat split; try done.
    + left. eexists _, _. split; [reflexivity|]. split; [reflexivity|].
      apply Forall_forall. by apply find_tag_None.
  - left. eexists _, _. split; [reflexivity|]. split; [reflexivity|done].
Qed.


(** X18. When the library adds the movie, [AddMovie] returns no error after
    that one call.  When the library refuses with a text that has neither
    [already been added] nor [already exists], [AddMovie] returns an error
    after that one call: it looks nothing up and updates nothing. *)
Theorem AddMovie_single_call (config : RadarrConfig) (tmdbID : Z) (title : string)
    (year : Z) (tagIDs : list Z) (w : W) :
  let input :=
    mkAddMovieInput title year tmdbID (rc_QualityProfileID config)
      (rc_RootFolderPath config) (rc_Monitored config) tagIDs
      (rc_SearchForMovie config) in
  let o := AddMovie config tmdbID title year tagIDs w in
  match (handle _ (RadarrAddMovie input) w).1 with
  | Ok _ => value o = Ok () ∧ radarr_ops (events o) = [OpAddMovie input]
  | Err errMsg =>
      (∃ sub, sub ∈ ["already been added"; "already exists"] ∧ occurs_in sub errMsg)
      ∨ ((∃ e, value o = Err e) ∧ radarr_ops (events o) = [OpAddMovie input])
  end.
Proof.
  cbv zeta. unfold AddMovie. cbv zeta. run.
  destruct (handle _ (RadarrAddMovie _) w) as [[added|errMsg] w1]; cbn; [done|].
  destruct (containsAny errMsg ["already been added"; "already exists"]) eqn:Hc.
  - left. by apply containsAny_occurs_helper.
  - right. cbn. eauto.
Qed.
End Radarr_more.

(** ** The tagging pass *)




Section Tagging_more.
Context {W : Type} `{Handler W}.




End Tagging_more.

(** ** Reconciliation, further *)

#[local] Arguments validMovies : simpl never.
#[local] Arguments TestConnection : simpl never.

Lemma expectedNames_of_expected (results : list (string * Series)) (name : string) :
  name ∈ expectedNames_of results ↔ expected_by results name.
Proof.
  unfold expectedNames_of, expected_by.
  assert (Hgen : ∀ (l : list (string * Series)) (acc : gset string),
            name ∈ foldl (λ expectedNames e,
                            if 2 <=? validMovies e.2
                            then {[ "Metrograph: " +:+ Name e.2 ]} ∪ expectedNames
                            else expectedNames) acc l
            ↔ name ∈ acc
              ∨ Exists (λ e, 2 ≤ validMovies e.2 ∧ name = collection_name e.2) l).
  { induction l as [|e l IH]; intros acc; cbn [foldl].
    - rewrite Exists_nil. naive_solver.
    - rewrite IH, Exists_cons. unfold collection_name.
      destruct (2 <=? validMovies e.2) eqn:Hv.
      + apply Z.leb_le in Hv. rewrite elem_of_union, elem_of_singleton. naive_solver.
      + apply Z.leb_gt in Hv. split; [naive_solver|].
        intros [?|[[? ?]|?]]; [by left|lia|by right]. }
  rewrite Hgen. split; [|by right]. intros [Hin|?]; [|done].
  by apply not_elem_of_empty in Hin.
Qed.

(** X21. The names that [SyncCollectionsFromJSON] expects are the names
    [Metrograph: ] and a series name, for the series of the snapshot with
    two resolved films or more; the order in which the map of the snapshot
    is visited does not change them. *)
Theorem expectedNames_of_eligible_series (results results' : list (string * Series))
    (name : string) :
  (name ∈ expectedNames_of results
   ↔ ∃ seriesID series, (seriesID, series) ∈ results
                        ∧ 2 ≤ validMovies series
                        ∧ name = "Metrograph: " +:+ Name series)
  ∧ (results ≡ₚ results' → expectedNames_of results = expectedNames_of results').
Proof.
  split.
  - rewrite expectedNames_of_expected. unfold expected_by. rewrite Exists_exists.
    split.
    + intros ([seriesID series] & Hin & Hv & ->). by exists seriesID, series.
    + intros (seriesID & series & Hin & Hv & ->). by exists (seriesID, series).
  - intros Hperm. apply set_eq. intros x.
    rewrite !expectedNames_of_expected. unfold expected_by.
    by rewrite Hperm.
Qed.

Lemma toDelete_expected_by (results : list (string * Series))
    (existing : list Collection) :
  toDelete (expectedNames_of results) existing
  = filter (λ c, owned_name (c_Name c) = true ∧ ¬ expected_by results (c_Name c))
      existing.
Proof.
  unfold toDelete. apply list_filter_iff. intros c.
  by rewrite expectedNames_of_expected.
Qed.

Section Reconciliation_more.
Context {W : Type} `{Handler W}.

(** X22. [SyncCollectionsFromJSON] returns an error only before it deletes
    anything.  When the snapshot cannot be read or parsed, it returns an
    error after that one read.  When the collections cannot be listed, it
    returns an error after the listing, whose one [GET] request is sent
    only when it could be created: it has asked for no deletion and has
    not called Radarr.  Once the collections are listed it returns no
    error: a deletion that fails does not make the pass fail. *)
Theorem SyncCollectionsFromJSON_fails_fast (jsonFile : string)
    (radarrConfig : RadarrConfig) (agregarrConfig : AgregarrConfig) (w : W) :
  let o := SyncCollectionsFromJSON jsonFile radarrConfig agregarrConfig w in
  let read := handle _ (OsReadFile jsonFile) w in
  let listing := GetCollections agregarrConfig read.2 in
  match read.1 with
  | Ok (Ok _) =>
      match value listing with
      | Ok _ => value o = Ok ()
      | Err _ =>
          (∃ e, value o = Err e)
          ∧ events o = Ev (OsReadFile jsonFile) read.1 :: events listing
          ∧ makes_request agregarrConfig "GET" "collections" None (events listing)
          ∧ delete_calls (events o) = [] ∧ radarr_ops (events o) = []
      end
  | _ => (∃ e, value o = Err e) ∧ events o = [Ev (OsReadFile jsonFile) read.1]
  end.
Proof.
  cbv zeta.
  pose proof (SyncCollectionsFromJSON_trace jsonFile radarrConfig agregarrConfig w)
    as Htrace. cbv zeta in Htrace.
  pose proof (GetCollections_events agregarrConfig
                (handle _ (OsReadFile jsonFile) w).2) as Hlisting.
  destruct (listing_calls _ _ Hlisting) as (_ & Hcalls & _ & Hops & _).
  destruct ((handle _ (OsReadFile jsonFile) w).1) as [[scrapedData|e]|e];
    try exact Htrace.
  destruct (value (GetCollections agregarrConfig _)) as [existing|e].
  - by destruct Htrace as [Hval _].
  - destruct Htrace as [Hval Hev]. rewrite Hev.
    split; [exact Hval|]. split; [done|]. split; [exact Hlisting|].
    match goal with
    | |- context [delete_calls (?x :: ?l)] => change (x :: l) with ([x] ++ l)
    end.
    by rewrite delete_calls_app, radarr_ops_app, Hcalls, Hops.
Qed.

(** X23. Once the snapshot is read and the collections are listed,
    [SyncCollectionsFromJSON] returns no error and asks, in the order of
    the listing, for one deletion for each listed collection whose name is
    [Metrograph: ] followed by at least one byte and is not the name of a
    series of the snapshot with two resolved films or more; the [DELETE]
    requests it sends are those of them that could be created. *)
Theorem SyncCollectionsFromJSON_deletes_unexpected (jsonFile : string)
    (radarrConfig : RadarrConfig) (agregarrConfig : AgregarrConfig) (w : W)
    (scrapedData : ScrapedData) (existing : list Collection) :
  let o := SyncCollectionsFromJSON jsonFile radarrConfig agregarrConfig w in
  let w1 := (handle _ (OsReadFile jsonFile) w).2 in
  let w2 := world (GetCollections agregarrConfig w1) in
  let results := (handle _ (RangeMap (Collections scrapedData)) w2).1 in
  (handle _ (OsReadFile jsonFile) w).1 = Ok (Ok scrapedData) →
  value (GetCollections agregarrConfig w1) = Ok existing →
  value o = Ok ()
  ∧ (delete_calls (events o)).*1
    = delete_url agregarrConfig
      <$> filter (λ c, owned_name (c_Name c) = true
                       ∧ ¬ expected_by results (c_Name c)) existing
  ∧ delete_urls (events o) = created (delete_calls (events o))
  ∧ (Forall (λ d, d.2 = Ok ()) (delete_calls (events o)) →
     delete_urls (events o)
     = delete_url agregarrConfig
       <$> filter (λ c, owned_name (c_Name c) = true
                        ∧ ¬ expected_by results (c_Name c)) existing).
Proof.
  intros o w1 w2 results Hread Hget. subst o results w2 w1.
  pose proof (SyncCollectionsFromJSON_trace jsonFile radarrConfig agregarrConfig w)
    as Htrace. cbv zeta in Htrace.
  rewrite Hread, Hget in Htrace. destruct Htrace as [Hval Hev].
  split; [exact Hval|]. rewrite Hev.
  pose proof (GetCollections_events agregarrConfig
                (handle _ (OsReadFile jsonFile) w).2) as Hlisting.
  destruct (listing_calls _ _ Hlisting) as (_ & Hcalls & Hurls & _).
  match goal with
  | |- context [sync_delete ?a ?names ?l ?w0] =>
      destruct (sync_delete_trace a names l w0) as (groups & -> & Hgroups)
  end.
  destruct (deletions_calls _ _ _ Hgroups) as (_ & Hd1 & Hd2).
  rewrite toDelete_expected_by in Hd1.
  repeat match goal with
  | |- context [?x :: ?l1 ++ ?y :: ?l2] =>
      change (x :: l1 ++ y :: l2) with ([x] ++ l1 ++ [y] ++ l2)
  end.
  rewrite !delete_calls_app, !delete_urls_app, Hcalls, Hurls.
  cbn [app]. change (delete_calls [_]) with (@nil (string * result ())).
  change (delete_urls [_]) with (@nil string). cbn [app].
  split; [exact Hd1|]. split; [exact Hd2|].
  intros Hall. by rewrite Hd2, (created_all _ Hall).
Qed.

Lemma probes_trace (a : AgregarrConfig) (paths : list string) (w : W) :
  ∃ groups,
    events (for_range (λ path, do _ ← makeRequest a "GET" path None; ret ())
              paths w)
    = concat groups
    ∧ Forall2 (λ path evs, makes_request a "GET" path None evs) paths groups.
Proof.
  revert w. induction paths as [|path paths IH]; intros w.
  - exists []. split; [done|constructor].
  - rewrite for_range_cons. run. rewrite app_nil_r.
    destruct (IH (world (makeRequest a "GET" path None w))) as (groups & -> & Hgroups).
    exists (events (makeRequest a "GET" path None w) :: groups).
    split; [done|]. constructor; [apply makeRequest_events|done].
Qed.

(** X25. [TestConnection] goes through its five paths in order: for each
    it creates a [GET] request and sends it when it could be created,
    whatever the answers are.  It calls nothing else and returns no
    error. *)
Theorem TestConnection_probes_all (a : AgregarrConfig) (w : W) :
  let o := TestConnection a w in
  value o = Ok ()
  ∧ ∃ groups,
      events o = concat groups
      ∧ Forall2 (λ path evs, makes_request a "GET" path None evs) testPaths groups.
Proof.
  cbv zeta. unfold TestConnection.
  rewrite value_bind, events_bind, value_ret, events_ret, app_nil_r.
  split; [done|]. apply probes_trace.
Qed.
End Reconciliation_more.


Lemma SyncCollectionsFromJSON_deletes_unexpected_witness :
  let existing := fk_collections fake_x_y_unrelated in
  let scrapedData := mkScrapedData "2025-01-14" (list_to_map [("sx", series_x)]) in
  (handle _ (OsReadFile "2025-01-14.json") fake_x_y_unrelated).1
  = Ok (Ok scrapedData)
  ∧ value (GetCollections agregarr_config fake_x_y_unrelated) = Ok existing
  ∧ value (SyncCollectionsFromJSON "2025-01-14.json" radarr_config agregarr_config
             fake_x_y_unrelated) = Ok ()
  ∧ (delete_calls (events (SyncCollectionsFromJSON "2025-01-14.json" radarr_config
                             agregarr_config fake_x_y_unrelated))).*1
    = delete_url agregarr_config
      <$> filter (λ c, owned_name (c_Name c) = true
                       ∧ ¬ expected_by [("sx", series_x)] (c_Name c)) existing
  ∧ delete_urls (events (SyncCollectionsFromJSON "2025-01-14.json" radarr_config
                           agregarr_config fake_x_y_unrelated))
    = ["http://agregarr/api/v1/collections/c2"].
Proof.
  cbv zeta.
  assert (Hread : (handle _ (OsReadFile "2025-01-14.json") fake_x_y_unrelated).1
                  = Ok (Ok (mkScrapedData "2025-01-14"
                              (list_to_map [("sx", series_x)]))))
    by (vm_compute; reflexivity).
  assert (Hget : value (GetCollections agregarr_config fake_x_y_unrelated)
                 = Ok (fk_collections fake_x_y_unrelated))
    by (vm_compute; reflexivity).
  split; [exact Hread|]. split; [exact Hget|].
  destruct (SyncCollectionsFromJSON_deletes_unexpected "2025-01-14.json"
              radarr_config agregarr_config fake_x_y_unrelated _ _ Hread Hget)
    as (Hval & Hcalls & _ & _).
  split; [exact Hval|]. split; [exact Hcalls|].
  vm_compute. reflexivity.
Defined.


(** ** The metadata loop of [Crawl] *)

Lemma Split_slash_cons (s : string) : ∃ part parts, Split_slash s = part :: parts.
Proof.
  induction s as [|c s (part & parts & IH)]; cbn [Split_slash]; [eauto|].
  destruct (byte_eqb 47 c); [eauto|]. rewrite IH. eauto.
Qed.

Lemma Split_slash_no_slash (s : string) :
  has_byte 47 s = false → Split_slash s = [s].
Proof.
  induction s as [|c s IH]; cbn [Split_slash has_byte]; [done|].
  intros [Hc Hs]%orb_false_elim. rewrite Hc, (IH Hs). done.
Qed.

Lemma Split_slash_app (first rest : string) :
  has_byte 47 first = false →
  Split_slash (first +:+ "/" +:+ rest) = first :: Split_slash rest.
Proof.
  induction first as [|c first IH]; cbn [has_byte].
  - intros _. reflexivity.
  - intros [Hc Hs]%orb_false_elim.
    change (String c first +:+ "/" +:+ rest)
      with (String c (first +:+ "/" +:+ rest)).
    cbn [Split_slash]. rewrite Hc, (IH Hs). done.
Qed.

Lemma Split_slash_two (first second tail : string) :
  has_byte 47 first = false → has_byte 47 second = false →
  tail = "" ∨ (∃ t, tail = "/" +:+ t) →
  ∃ more, Split_slash (first +:+ "/" +:+ second +:+ tail) = first :: second :: more.
Proof.
  intros Hfirst Hsecond Htail. rewrite (Split_slash_app _ _ Hfirst).
  destruct Htail as [->|[t ->]].
  - exists []. f_equal. rewrite <- (Split_slash_no_slash second Hsecond).
    f_equal. induction second as [|c second IH]; [done|].
    change (String c second +:+ "") with (String c (second +:+ "")).
    cbn [has_byte] in Hsecond. apply orb_false_elim in Hsecond as [_ Hs].
    by rewrite (IH Hs) at 1.
  - rewrite (Split_slash_app _ _ Hsecond). eauto.
Qed.

Lemma app_slash_nonempty (first rest : string) : first +:+ "/" +:+ rest ≠ "".
Proof. by destruct first. Qed.

(** X26. A metadata line without a slash is not parsed: the film is left as
    it is, also when the line is a year. *)
Theorem parse_metadata_without_slash (m : Film) :
  has_byte 47 (rawMD m) = false → parse_metadata m = m.
Proof.
  intros Hno. unfold parse_metadata.
  case_bool_decide; [|done]. by rewrite (Split_slash_no_slash _ Hno).
Qed.

(** X27. When the text before the first slash of the metadata line, with
    the space around it removed, is a number between 1801 and 2099, it
    becomes the year of the film and nothing else changes: the director is
    not set, whatever follows the slash. *)
Theorem parse_metadata_year_first (m : Film) (first rest : string) (yr : Z) :
  rawMD m = first +:+ "/" +:+ rest → has_byte 47 first = false →
  Atoi (TrimSpace first) = Ok yr → 1800 < yr < 2100 →
  parse_metadata m = set_Year m yr.
Proof.
  intros Hraw Hfirst Hyr Hrange. unfold parse_metadata. rewrite Hraw.
  rewrite bool_decide_eq_true_2 by apply app_slash_nonempty.
  rewrite (Split_slash_app _ _ Hfirst).
  destruct (Split_slash_cons rest) as (second & more & ->).
  cbv zeta. rewrite Hyr.
  destruct (1800 <? yr) eqn:H1; [|apply Z.ltb_ge in H1; lia].
  destruct (yr <? 2100) eqn:H2; [|apply Z.ltb_ge in H2; lia].
  done.
Qed.

(** X28. When the text before the first slash is not a number, it becomes
    the director, with the space around it removed; the text between the
    first and the second slash becomes the year when it is a number,
    whatever the number, and otherwise the year is left as it is. *)
Theorem parse_metadata_director_first (m : Film) (first second tail e : string) :
  rawMD m = first +:+ "/" +:+ second +:+ tail →
  has_byte 47 first = false → has_byte 47 second = false →
  tail = "" ∨ (∃ t, tail = "/" +:+ t) →
  Atoi (TrimSpace first) = Err e →
  parse_metadata m
  = match Atoi (TrimSpace second) with
    | Ok yr => set_Year (set_Director m (TrimSpace first)) yr
    | Err _ => set_Director m (TrimSpace first)
    end.
Proof.
  intros Hraw Hfirst Hsecond Htail Hnum. unfold parse_metadata. rewrite Hraw.
  rewrite bool_decide_eq_true_2 by apply app_slash_nonempty.
  destruct (Split_slash_two first second tail Hfirst Hsecond Htail) as [more ->].
  cbv zeta. by rewrite Hnum.
Qed.

Lemma parse_metadata_keeps (m : Film) :
  Title (parse_metadata m) = Title m ∧ TMDBID (parse_metadata m) = TMDBID m
  ∧ rawMD (parse_metadata m) = rawMD m ∧ IMDBID (parse_metadata m) = IMDBID m.
Proof.
  unfold parse_metadata. case_bool_decide; [|done].
  destruct (Split_slash (rawMD m)) as [|first [|second more]]; [done..|].
  cbv zeta.
  destruct (Atoi (TrimSpace first)) as [yr|e].
  - destruct ((1800 <? yr) && (yr <? 2100)); [done|].
    by destruct (Atoi (TrimSpace second)).
  - by destruct (Atoi (TrimSpace second)).
Qed.

Lemma validMovies_parse_metadata (s : Series) :
  validMovies (set_Movies s (parse_metadata <$> Movies s)) = validMovies s.
Proof.
  rewrite !validMovies_count. cbn [Movies set_Movies]. f_equal.
  induction (Movies s) as [|m ms IH]; [done|].
  cbn [fmap list_fmap]. rewrite !filter_cons.
  destruct (parse_metadata_keeps m) as (_ & -> & _).
  destruct (decide (0 < TMDBID m)); cbn [length]; by rewrite IH.
Qed.

Lemma foldl_insert_lookup {V : Type} (f : V → V) (l : list (string * V))
    (acc : gmap string V) (id : string) :
  NoDup l.*1 →
  foldl (λ acc e, <[e.1 := f e.2]> acc) acc l !! id
  = match (list_to_map l : gmap string V) !! id with
    | Some v => Some (f v)
    | None => acc !! id
    end.
Proof.
  revert acc. induction l as [|[k v] l IH]; intros acc Hnodup; [done|].
  cbn [foldl fmap list_fmap fst snd] in *.
  apply NoDup_cons in Hnodup as [Hk Hnodup].
  rewrite IH by done. cbn [list_to_map foldr fst snd].
  destruct (decide (k = id)) as [->|Hne].
  - rewrite !lookup_insert_eq.
    by rewrite (not_elem_of_list_to_map_1 l id) by done.
  - by rewrite !(lookup_insert_ne _ k id) by done.
Qed.

(** X29. The metadata loop of [Crawl] writes to the map that it ranges
    over; whatever the order of the visit, every series keeps its key, its
    name and its films in their order, each film with its title, its TMDB
    id and its metadata line, so that the number of resolved films of no
    series changes. *)
Theorem Crawl_parse_metadata_pointwise (results : gmap string Series)
    (entries : list (string * Series)) (seriesID : string) :
  entries ≡ₚ map_to_list results →
  Crawl_parse_metadata results entries !! seriesID
  = (λ s, set_Movies s (parse_metadata <$> Movies s)) <$> results !! seriesID
  ∧ ∀ s', Crawl_parse_metadata results entries !! seriesID = Some s' →
      ∃ s, results !! seriesID = Some s
           ∧ Name s' = Name s ∧ validMovies s' = validMovies s
           ∧ titles (Movies s') = titles (Movies s)
           ∧ TMDBID <$> Movies s' = TMDBID <$> Movies s.
Proof.
  intros Hperm.
  assert (Hnodup : NoDup entries.*1).
  { rewrite Hperm. apply NoDup_fst_map_to_list. }
  assert (Hmap : (list_to_map entries : gmap string Series) = results).
  { rewrite (list_to_map_proper _ _ Hnodup Hperm). apply list_to_map_to_list. }
  assert (Hlookup : Crawl_parse_metadata results entries !! seriesID
            = (λ s, set_Movies s (parse_metadata <$> Movies s))
              <$> results !! seriesID).
  { unfold Crawl_parse_metadata.
    rewrite (foldl_insert_lookup
               (λ s, set_Movies s (parse_metadata <$> Movies s))) by done.
    rewrite Hmap. by destruct (results !! seriesID). }
  split; [exact Hlookup|].
  intros s'. rewrite Hlookup.
  destruct (results !! seriesID) as [s|]; [|done].
  intros [= <-]. exists s. split; [done|]. split; [done|].
  split; [apply validMovies_parse_metadata|].
  cbn [Movies set_Movies]. unfold titles.
  split; induction (Movies s) as [|m ms IH]; try done;
    cbn [fmap list_fmap]; destruct (parse_metadata_keeps m) as (Ht & Hid & _);
    cbn [fmap list_fmap] in IH; congruence.
Qed.

Lemma parse_metadata_without_slash_witness :
  has_byte 47 (rawMD film_bare_year) = false
  ∧ parse_metadata film_bare_year = film_bare_year.
Proof.
  split; [reflexivity|]. apply (parse_metadata_without_slash film_bare_year).
  reflexivity.
Defined.

Lemma parse_metadata_year_first_witness :
  rawMD film_year_first = "2019 " +:+ "/" +:+ " 132min / DCP"
  ∧ has_byte 47 "2019 " = false
  ∧ Atoi (TrimSpace "2019 ") = Ok 2019
  ∧ 1800 < 2019 < 2100
  ∧ parse_metadata film_year_first = set_Year film_year_first 2019.
Proof.
  assert (H1 : rawMD film_year_first = "2019 " +:+ "/" +:+ " 132min / DCP")
    by reflexivity.
  assert (H2 : has_byte 47 "2019 " = false) by reflexivity.
  assert (H3 : Atoi (TrimSpace "2019 ") = Ok 2019) by (vm_compute; reflexivity).
  assert (H4 : 1800 < 2019 < 2100) by lia.
  split; [exact H1|]. split; [exact H2|]. split; [exact H3|]. split; [exact H4|].
  exact (parse_metadata_year_first film_year_first _ _ 2019 H1 H2 H3 H4).
Defined.

Lemma parse_metadata_director_first_witness :
  rawMD film_director_first
  = "Todd Haynes " +:+ "/" +:+ " 2015 " +:+ ("/" +:+ " 118min / DCP")
  ∧ has_byte 47 "Todd Haynes " = false ∧ has_byte 47 " 2015 " = false
  ∧ Atoi (TrimSpace "Todd Haynes ") = Err "invalid syntax"
  ∧ parse_metadata film_director_first
    = match Atoi (TrimSpace " 2015 ") with
      | Ok yr => set_Year (set_Director film_director_first
                             (TrimSpace "Todd Haynes ")) yr
      | Err _ => set_Director film_director_first (TrimSpace "Todd Haynes ")
      end
  ∧ parse_metadata film_director_first
    = mkFilm "Carol" "Todd Haynes / 2015 / 118min / DCP" "Todd Haynes" 2015 0 "".
Proof.
  assert (H1 : rawMD film_director_first
               = "Todd Haynes " +:+ "/" +:+ " 2015 " +:+ ("/" +:+ " 118min / DCP"))
    by reflexivity.
  assert (H2 : has_byte 47 "Todd Haynes " = false) by reflexivity.
  assert (H3 : has_byte 47 " 2015 " = false) by reflexivity.
  assert (H4 : Atoi (TrimSpace "Todd Haynes ") = Err "invalid syntax")
    by (vm_compute; reflexivity).
  split; [exact H1|]. split; [exact H2|]. split; [exact H3|]. split; [exact H4|].
  split; [|vm_compute; reflexivity].
  exact (parse_metadata_director_first film_director_first _ _ _ _ H1 H2 H3
           (or_intror (ex_intro _ " 118min / DCP" eq_refl)) H4).
Defined.

Lemma Crawl_parse_metadata_pointwise_witness :
  let results : gmap string Series :=
    list_to_map [("s1", mkSeries "Haynes" "" "s1" [film_director_first]);
                 ("s2", mkSeries "Bong" "" "s2" [film_year_first; film_bare_year])] in
  map_to_list results ≡ₚ map_to_list results
  ∧ Crawl_parse_metadata results (map_to_list results) !! "s1"
    = Some (mkSeries "Haynes" "" "s1"
              [mkFilm "Carol" "Todd Haynes / 2015 / 118min / DCP" "Todd Haynes"
                 2015 0 ""])
  ∧ Crawl_parse_metadata results (map_to_list results) !! "s1"
    = (λ s, set_Movies s (parse_metadata <$> Movies s)) <$> results !! "s1".
Proof.
  cbv zeta. split; [reflexivity|]. split; [vm_compute; reflexivity|].
  apply Crawl_parse_metadata_pointwise. reflexivity.
Defined.

